(** * sqlite3-transactions: transactions over one shared connection

    A shallow embedding of [sqlite3-transactions.js].  The library is
    callback driven: every function of the source runs to completion on
    the single JavaScript thread, and the connection, the timers and the
    callers re-enter it later.  A handler of the source is therefore a
    function in a state-and-exception monad over the facade's fields, and
    an execution is a list of [Action]s (calls by the callers, completions
    reported by the connection, timers firing) folded over the state built
    by the constructor.

    Closures are first-order data: each function value the source creates
    is a constructor of [FnVal] (or of [Waiter] for the continuations
    given to [_wait]) carrying the variables it captured, and [invoke]
    runs its body.  The variables [finished] and [callback] of one call
    of [beginTransaction] live in an [Activation]; the connection object,
    which is also every transaction handle, is one table of methods
    shared by all of them.

    What the model takes from outside the source:
    - the connection runs its methods asynchronously: a native method
      returns without throwing, and an outstanding call is completed at
      most once, by calling its trailing function;
    - the callers use the facade through its interface: the wrapped
      methods, [prepare], [beginTransaction], the handle they are given
      and the statements [prepare] returns; the members [_exec],
      [_wait] and [_runQueue] are called by the source only;
    - of the EventEmitter methods the facade inherits, adding an
      'error' listener is the action [Listen]; the others are taken to
      leave the facade's fields alone, so a theorem that depends on the
      'error' listeners is stated for executions that do not call them;
    - an EventEmitter calls a listener with [this] bound to the emitter,
      and throws on an 'error' event without listener;
    - the functions of the callers are opaque; the source calls a
      completion callback last in a handler, so what the caller does in
      it appears as later actions;
    - the constructor's optional [exec] argument is left at its default. *)

From stdpp Require Import base option list strings gmap.
From Stdlib Require Import ZArith Lia.

Local Open Scope Z_scope.
Local Open Scope string_scope.
Local Open Scope list_scope.

(** ** Values, function values, arguments *)

(** The objects of the program: the wrapped database ([this.db], which
    is also every transaction handle), a prepared statement of it (the
    [oldStatement] of [prepare]), and the TransactionDatabase itself. *)
Inductive Object : Set :=
| Connection
| Statement (n : nat)
| Facade.

Inductive Value : Set :=
| VUndefined
| VNull
| VError (msg : string)
| VRef (o : Object).

(** [_.isNull] and JavaScript truthiness on these values. *)
Definition isNull (v : Value) : bool :=
  match v with VNull => true | _ => false end.

Definition truthy (v : Value) : bool :=
  match v with VUndefined | VNull => false | VError _ | VRef _ => true end.

(** A completion callback as a caller passed it: one of the caller's
    functions (opaque, named by a number) or something that is not a
    function (an omitted argument). *)
Inductive Callback : Set :=
| Fn (id : nat)
| NotAFunction.

(** The [cb] of [tr.rollback]: given by a caller, or one of the two
    closures the source itself passes,
    [function() { cb(err); }] in [tr.commit] and [function() {}] in the
    error listener. *)
Inductive TermCb : Set :=
| ByCaller (cb : Callback)
| AfterFailedCommit (cb : Callback) (err : Value)
| Noop.

(** Function values that travel as arguments. *)
Inductive FnVal : Set :=
| UserF (id : nat)                      (* a function of the caller *)
| NewCallback (originalCallback : FnVal) (* newCallback of wrapDbMethod *)
| ForwardError        (* function(e) { if (e) db.emit("error", e); } *)
| BeginDone (tid : nat)                 (* callback given to _exec("BEGIN;") *)
| CommitDone (tid : nat) (cb : Callback)   (* ... to _exec("COMMIT;") *)
| RollbackDone (tid : nat) (cb : TermCb)   (* ... to _exec("ROLLBACK;") *)
| Resume (cb : Callback) (err : Value)  (* function() { cb(err); } *)
| Ignore.                               (* function() {} *)

Inductive Arg : Set :=
| AVal (v : Value)
| AStr (s : string)
| AFn (f : FnVal).

(** Arguments as a caller can write them: callers hold no closure of the
    library. *)
Inductive UArg : Set :=
| UVal (v : Value)
| UStr (s : string)
| UFn (id : nat).

Definition inject (a : UArg) : Arg :=
  match a with
  | UVal v => AVal v
  | UStr s => AStr s
  | UFn id => AFn (UserF id)
  end.

(** The n-th formal parameter of a function called with [vals]: missing
    arguments are [undefined]. *)
Definition param (n : nat) (vals : list Value) : Value :=
  default VUndefined (vals !! n).

Definition callback_arg (a : option Arg) : Callback :=
  match a with
  | Some (AFn (UserF id)) => Fn id
  | _ => NotAFunction
  end.

Definition term_arg (a : option Arg) : TermCb :=
  match a with
  | Some (AFn (Resume cb err)) => AfterFailedCommit cb err
  | Some (AFn Ignore) => Noop
  | other => ByCaller (callback_arg other)
  end.

(** ** The facade's state *)

Inductive ItemType : Set := Lock | Simple | Transaction.

Record Item : Set := {
  type : ItemType;
  object : Object;
  method : string;
  args : list Arg
}.

(** A call handed to the connection whose completion is outstanding. *)
Record Call : Set := {
  target : Object;
  name : string;
  arguments : list Arg
}.

(** The continuations given to [_wait], with their captured variables;
    [tid] names the activation of [beginTransaction] whose [finished],
    [callback] and [finishTransaction] they close over. *)
Inductive Waiter : Set :=
| WaitBegin (tid : nat)
| WaitCommit (tid : nat) (cb : Callback)
| WaitRollback (tid : nat) (cb : TermCb).

(** The local variables of one activation of [beginTransaction] that
    outlive the call. *)
Record Activation : Set := {
  finished : bool;
  callback : Callback
}.

(** What a function-valued property of an object holds. *)
Inductive Method : Set :=
| Native                               (* the object's own implementation *)
| Wrapped (source : Object) (m : string) (* wrapDbMethod(_, source, m) *)
| InterceptedEmit                      (* the emit of interceptEmit *)
| CommitOf (tid : nat)                 (* tr.commit = function(cb) ... *)
| RollbackOf (tid : nat)               (* tr.rollback = function(cb) ... *)
| PrepareWrapper.                      (* this.prepare = function() ... *)

Inductive Exn : Set :=
| LocksNotBalanced               (* "Locks are not ballanced. Sorry." *)
| TypeError                      (* calling or reading through a non-object *)
| UnhandledError (e : Value)     (* EventEmitter: 'error' without listener *)
| StackExhausted.

(** The observable trace: what reaches the connection, the callers and
    the timer queue. *)
Inductive Event : Set :=
| Issue (stmt : string)            (* self._exec(stmt, ...) *)
| Dispatch (o : Object) (m : string) (a : list Arg) (* o[m].apply(o, a) *)
| Called (id : nat) (vals : list Value)  (* a caller's function runs *)
| Emitted (a : list Arg)           (* the facade re-emits an event *)
| Retry                            (* setTimeout(check, 1) *)
| Threw (x : Exn).                 (* an exception leaves the handler *)

(** Every trace entry keeps the value [_lock] had when it was made. *)
Record Entry : Set := {
  event : Event;
  lock_then : Z
}.

Record State : Type := {
  _lock : Z;
  db : gmap string Method;           (* the connection object's methods *)
  queue : list Item;
  currentTransaction : Value;
  own : gmap string Method;          (* methods wrapObject put on the facade *)
  listening : bool;                  (* the facade has an 'error' listener *)
  activations : list Activation;
  inflight : list Call;
  timers : list Waiter;
  log : list Entry                   (* newest first *)
}.

Definition set_lock (z : Z) (s : State) : State :=
  {| _lock := z; db := db s; queue := queue s;
     currentTransaction := currentTransaction s; own := own s;
     listening := listening s; activations := activations s;
     inflight := inflight s; timers := timers s; log := log s |}.

Definition set_db (d : gmap string Method) (s : State) : State :=
  {| _lock := _lock s; db := d; queue := queue s;
     currentTransaction := currentTransaction s; own := own s;
     listening := listening s; activations := activations s;
     inflight := inflight s; timers := timers s; log := log s |}.

Definition set_queue (q : list Item) (s : State) : State :=
  {| _lock := _lock s; db := db s; queue := q;
     currentTransaction := currentTransaction s; own := own s;
     listening := listening s; activations := activations s;
     inflight := inflight s; timers := timers s; log := log s |}.

Definition set_currentTransaction (v : Value) (s : State) : State :=
  {| _lock := _lock s; db := db s; queue := queue s;
     currentTransaction := v; own := own s;
     listening := listening s; activations := activations s;
     inflight := inflight s; timers := timers s; log := log s |}.

Definition set_listening (b : bool) (s : State) : State :=
  {| _lock := _lock s; db := db s; queue := queue s;
     currentTransaction := currentTransaction s; own := own s;
     listening := b; activations := activations s;
     inflight := inflight s; timers := timers s; log := log s |}.

Definition set_activations (l : list Activation) (s : State) : State :=
  {| _lock := _lock s; db := db s; queue := queue s;
     currentTransaction := currentTransaction s; own := own s;
     listening := listening s; activations := l;
     inflight := inflight s; timers := timers s; log := log s |}.

Definition set_inflight (l : list Call) (s : State) : State :=
  {| _lock := _lock s; db := db s; queue := queue s;
     currentTransaction := currentTransaction s; own := own s;
     listening := listening s; activations := activations s;
     inflight := l; timers := timers s; log := log s |}.

Definition set_timers (l : list Waiter) (s : State) : State :=
  {| _lock := _lock s; db := db s; queue := queue s;
     currentTransaction := currentTransaction s; own := own s;
     listening := listening s; activations := activations s;
     inflight := inflight s; timers := l; log := log s |}.

Definition set_log (l : list Entry) (s : State) : State :=
  {| _lock := _lock s; db := db s; queue := queue s;
     currentTransaction := currentTransaction s; own := own s;
     listening := listening s; activations := activations s;
     inflight := inflight s; timers := timers s; log := l |}.

(** ** The monad of handlers

    A handler mutates the state and either returns or throws; what it
    mutated before throwing stays mutated. *)
Definition M (A : Type) : Type := State → (A + Exn) * State.

Definition ret {A} (a : A) : M A := λ s, (inl a, s).

Definition bind {A B} (m : M A) (k : A → M B) : M B :=
  λ s, match m s with
       | (inl a, s') => k a s'
       | (inr x, s') => (inr x, s')
       end.

Definition throw {A} (x : Exn) : M A := λ s, (inr x, s).
Definition gets {A} (f : State → A) : M A := λ s, (inl (f s), s).
Definition modify (f : State → State) : M unit := λ s, (inl tt, f s).
Definition when (b : bool) (m : M unit) : M unit := if b then m else ret tt.

Notation "x <- m ;; k" := (bind m (λ x, k))
  (at level 100, m at next level, right associativity).
Notation "m ;;; k" := (bind m (λ _, k))
  (at level 100, right associativity).

Definition record (e : Event) : M unit :=
  modify (λ s, set_log ({| event := e; lock_then := _lock s |} :: log s) s).

(** ** Constants of the source *)

Definition prohibitedMethods : list string :=
  [ "emit"; "addListener"; "setMaxListeners";
    "on"; "once"; "removeListener";
    "removeAllListeners"; "listeners";
    "prepare" ].

Definition lockMethods : list string :=
  [ "exec"; "run"; "get"; "all"; "each"; "map"; "finalize"; "reset" ].

(** ** Primitives *)

(** A native method of the connection or of a statement is called: the
    call is outstanding until the connection reports its completion. *)
Definition native (o : Object) (m : string) (a : list Arg) : M unit :=
  record (Dispatch o m a) ;;;
  modify (λ s, set_inflight
                 (inflight s ++ [{| target := o; name := m; arguments := a |}]) s).

(** [this._exec(stmt, f)]: by default [db.exec] bound to the connection. *)
Definition _exec (stmt : string) (f : FnVal) : M unit :=
  record (Issue stmt) ;;;
  modify (λ s, set_inflight
                 (inflight s ++ [{| target := Connection; name := "exec";
                                    arguments := [AStr stmt; AFn f] |}]) s).

(** Calling what the caller passed as a callback. *)
Definition call (cb : Callback) (vals : list Value) : M unit :=
  match cb with
  | Fn id => record (Called id vals)
  | NotAFunction => throw TypeError
  end.

Definition call_term (cb : TermCb) (vals : list Value) : M unit :=
  match cb with
  | ByCaller c => call c vals
  | AfterFailedCommit c err => call c [err]
  | Noop => ret tt
  end.

Definition is_finished (tid : nat) (s : State) : bool :=
  default false (finished <$> activations s !! tid).

Definition callback_of (tid : nat) (s : State) : Callback :=
  default NotAFunction (callback <$> activations s !! tid).

Definition finish_activation (a : Activation) : Activation :=
  {| finished := true; callback := callback a |}.

(** [args[args.length-1] = newCallback] when the last argument is a
    function, [args[args.length] = newCallback] otherwise. *)
Definition hijack (a : list Arg) : list Arg :=
  match last a with
  | Some (AFn originalCallback) =>
      take (length a - 1) a ++ [AFn (NewCallback originalCallback)]
  | _ => a ++ [AFn (NewCallback ForwardError)]
  end.

Definition locking (m : string) : bool := bool_decide (m ∈ lockMethods).

(** [emit(name, e)]: is the event 'error', and the values passed. *)
Definition is_error_event (a : list Arg) : bool :=
  match a with
  | AStr n :: _ => bool_decide (n = "error")
  | _ => false
  end.

Definition values_of (a : list Arg) : list Value :=
  (λ x, match x with AVal v => v | _ => VUndefined end) <$> a.

(** What reading [this.currentTransaction] yields: a value, or a
    function when the property holds a method. *)
Inductive Read : Set :=
| Val (v : Value)
| Fun (m : Method).

Definition read_currentTransaction (this : Object) (s : State) : Read :=
  match this with
  | Facade => Val (currentTransaction s)
  | Connection =>
      match db s !! "currentTransaction" with
      | Some m => Fun m
      | None => Val VUndefined
      end
  | Statement _ => Val VUndefined
  end.

Definition read_isNull (r : Read) : bool :=
  match r with Val v => isNull v | Fun _ => false end.

(** ** The functions of the source

    [beginTransaction], [finishTransaction] and [_runQueue] call each
    other in a cycle: the continuation [beginTransaction] gives to
    [_wait] calls [finishTransaction] when it is passed an error, which
    runs the queue, which may call [beginTransaction].  The cycle is cut
    at that one call: [finish_rec] stands for it inside the section, and
    [finishTransaction_at] below closes it with a bound on the depth. *)
Section Functions.

Variable finish_rec : nat → Value → TermCb → M unit.

(** The bodies of the three functions passed to [self._wait]; [vals]
    are the arguments [_wait] calls them with. *)
Definition continuation (w : Waiter) (vals : list Value) : M unit :=
  let err := param 0 vals in
  match w with
  | WaitBegin tid =>
      cb <- gets (callback_of tid) ;;
      when (truthy err) (finish_rec tid err (ByCaller cb)) ;;;
      _exec "BEGIN;" (BeginDone tid)
  | WaitCommit tid cb =>
      callback <- gets (callback_of tid) ;;
      when (truthy err) (call callback [err]) ;;;
      _exec "COMMIT;" (CommitDone tid cb)
  | WaitRollback tid cb =>
      callback <- gets (callback_of tid) ;;
      when (truthy err) (call callback [err]) ;;;
      _exec "ROLLBACK;" (RollbackDone tid cb)
  end.

(** [check] of [_wait]: call back when the counter is zero, otherwise
    look again after a timer. *)
Definition check (w : Waiter) : M unit :=
  λ s, if bool_decide (_lock s = 0)
       then continuation w [] s
       else (record Retry ;;;
             modify (λ s, set_timers (timers s ++ [w]) s)) s.

Definition _wait (w : Waiter) : M unit := check w.

(** [tr.commit] and [tr.rollback] of activation [tid]. *)
Definition commit (tid : nat) (cb : Callback) : M unit :=
  λ s, if is_finished tid s
       then call cb
              [VError "Transaction is already finished. Can't do commit()."] s
       else _wait (WaitCommit tid cb) s.

Definition rollback (tid : nat) (cb : TermCb) : M unit :=
  λ s, if is_finished tid s
       then call_term cb
              [VError "Transaction is already finished. Can't do rollback()."] s
       else _wait (WaitRollback tid cb) s.

(** [h.rollback(f)] where [h] is the connection object: the method is
    looked up on the object when the call is made. *)
Definition handle_rollback (f : FnVal) : M unit :=
  λ s, match db s !! "rollback" with
       | Some (RollbackOf tid) => rollback tid (term_arg (Some (AFn f))) s
       | Some Native => native Connection "rollback" [AFn f] s
       | _ => throw TypeError s
       end.

(** The listener the constructor registers with [this.db.on('error')].
    An EventEmitter calls a listener with [this] bound to the emitter. *)
Definition error_listener (this : Object) : M unit :=
  r <- gets (read_currentTransaction this) ;;
  if negb (read_isNull r)
  then match r with
       | Val (VRef Connection) => handle_rollback Ignore
       | _ => throw TypeError
       end
  else ret tt.

(** The [emit] that [interceptEmit] puts on the connection: first the
    facade's own [emit] (which throws on an 'error' event nobody
    listens to), then the connection's original [emit], which runs the
    listeners registered on the connection. *)
Definition intercepted_emit (a : list Arg) : M unit :=
  listens <- gets listening ;;
  (if is_error_event a && negb listens
   then throw (UnhandledError (param 1 (values_of a)))
   else record (Emitted a)) ;;;
  when (is_error_event a) (error_listener Connection).

(** [object[method].apply(object, args)] for the object a wrapper was
    made for: the connection or a prepared statement. *)
Definition apply_raw (o : Object) (m : string) (a : list Arg) : M unit :=
  match o with
  | Connection =>
      λ s, match db s !! m with
           | Some Native => native Connection m a s
           | Some InterceptedEmit => intercepted_emit a s
           | Some (CommitOf tid) => commit tid (callback_arg (head a)) s
           | Some (RollbackOf tid) => rollback tid (term_arg (head a)) s
           | _ => throw TypeError s
           end
  | Statement n => native (Statement n) m a
  | Facade => throw TypeError
  end.

(** The function [wrapDbMethod(transactionDatabase, object, method)]
    returns, applied to [a]. *)
Definition wrapDbMethod (o : Object) (m : string) (a : list Arg) : M unit :=
  let a' := if locking m then hijack a else a in
  cur <- gets currentTransaction ;;
  if isNull cur
  then when (locking m) (modify (λ s, set_lock (_lock s + 1) s)) ;;;
       apply_raw o m a'
  else modify (λ s, set_queue
                      (queue s ++ [{| type := if locking m then Lock else Simple;
                                      object := o; method := m; args := a' |}]) s).

Definition beginTransaction (a : list Arg) : M unit :=
  cur <- gets currentTransaction ;;
  if negb (isNull cur)
  then modify (λ s, set_queue
                      (queue s ++ [{| type := Transaction; object := Facade;
                                      method := "beginTransaction";
                                      args := a |}]) s)
  else
    tid <- gets (λ s, length (activations s)) ;;
    modify (λ s, set_activations
                   (activations s ++ [{| finished := false;
                                         callback := callback_arg (head a) |}]) s) ;;;
    modify (set_currentTransaction (VRef Connection)) ;;;
    modify (λ s, set_db (<["commit" := CommitOf tid]> (db s)) s) ;;;
    modify (λ s, set_db (<["rollback" := RollbackOf tid]> (db s)) s) ;;;
    _wait (WaitBegin tid).

(** A method called on the facade: an own property (a wrapper) shadows
    the prototype, which supplies [beginTransaction]. *)
Definition apply_facade (m : string) (a : list Arg) : M unit :=
  λ s, match own s !! m with
       | Some (Wrapped src m') => wrapDbMethod src m' a s
       | Some PrepareWrapper => native Connection "prepare" a s
       | Some _ => throw TypeError s
       | None => if bool_decide (m = "beginTransaction")
                 then beginTransaction a s
                 else throw TypeError s
       end.

(** [item.object[item.method].apply(item.object, item.args)]. *)
Definition apply_item (i : Item) : M unit :=
  match object i with
  | Facade => apply_facade (method i) (args i)
  | o => apply_raw o (method i) (args i)
  end.

Definition is_lock (t : ItemType) : bool :=
  match t with Lock => true | _ => false end.

Definition is_transaction (t : ItemType) : bool :=
  match t with Transaction => true | _ => false end.

(** The while loop of [_runQueue]; [n] bounds the iterations. *)
Fixpoint runQueue_loop (n : nat) : M unit :=
  λ s, match queue s with
       | [] => (inl tt, s)
       | item :: rest =>
           match n with
           | O => (inr StackExhausted, s)
           | S n' =>
               (modify (set_queue rest) ;;;
                when (is_lock (type item))
                     (modify (λ s, set_lock (_lock s + 1) s)) ;;;
                apply_item item ;;;
                if is_transaction (type item) then ret tt
                else runQueue_loop n') s
           end
       end.

Definition _runQueue : M unit :=
  λ s, runQueue_loop (length (queue s)) s.

(** [finishTransaction(e, cb)] of activation [tid]. *)
Definition finishTransaction (tid : nat) (e : Value) (cb : TermCb) : M unit :=
  modify (λ s, set_activations (alter finish_activation tid (activations s)) s) ;;;
  modify (set_currentTransaction VNull) ;;;
  _runQueue ;;;
  call_term cb [e].

(** Running a function value the connection was given. *)
Fixpoint invoke (f : FnVal) (vals : list Value) : M unit :=
  let err := param 0 vals in
  match f with
  | UserF id => record (Called id vals)
  | NewCallback originalCallback =>
      λ s, if bool_decide (_lock s < 1)
           then throw LocksNotBalanced s
           else (modify (λ s, set_lock (_lock s - 1) s) ;;;
                 invoke originalCallback vals) s
  | ForwardError =>
      when (truthy err) (apply_raw Connection "emit" [AStr "error"; AVal err])
  | BeginDone tid =>
      callback <- gets (callback_of tid) ;;
      if truthy err then call callback [err]
      else call callback [VNull; VRef Connection]
  | CommitDone tid cb =>
      if truthy err then handle_rollback (Resume cb err)
      else finishTransaction tid VNull (ByCaller cb)
  | RollbackDone tid cb => finishTransaction tid err cb
  | Resume cb e => call cb [e]
  | Ignore => ret tt
  end.

End Functions.

(** ** The constructor *)

(** The loop of [wrapObject(transactionDatabase, target, source)]: every
    function-valued property of [source] that is not prohibited gets a
    wrapper on [target]. *)
Definition wrapObject (source : Object) (props target : gmap string Method)
  : gmap string Method :=
  map_imap (λ m _, if bool_decide (m ∈ prohibitedMethods) then None
                   else Some (Wrapped source m)) props ∪ target.

(** A database object whose methods are [methods]. *)
Definition database (methods : list string) : gmap string Method :=
  list_to_map ((λ m, (m, Native)) <$> methods).

(** [new TransactionDatabase(database)] for such a database (and the
    default [exec]).  [wrapObject] fills the facade from the database
    and [interceptEmit] replaces the database's own [emit]; [this.db] is
    the database object itself, not a copy. *)
Definition TransactionDatabase (methods : list string) : State :=
  {| _lock := 0;
     db := <["emit" := InterceptedEmit]> (database methods);
     queue := [];
     currentTransaction := VNull;
     own := <["prepare" := PrepareWrapper]>
              (wrapObject Connection (database methods) ∅);
     listening := false;
     activations := [];
     inflight := [];
     timers := [];
     log := [ {| event := Dispatch Connection "serialize" []; lock_then := 0 |} ] |}.

(** ** Executions *)

(** What happens to the facade from outside: calls by the callers on the
    facade, on the transaction handle (the connection object) and on a
    wrapped prepared statement; the connection completing an outstanding
    call by calling its trailing function; a timer firing; the connection
    emitting 'error'. *)
Inductive Action : Set :=
| CallFacade (m : string) (a : list UArg)
| CallHandle (m : string) (a : list UArg)
| CallStatement (n : nat) (m : string) (a : list UArg)
| Listen
| Complete (i : nat) (vals : list Value)
| Tick (i : nat)
| ErrorEvent (e : Value).

(** Methods the facade and a wrapped statement inherit from EventEmitter.
    They do not touch the fields of the source; adding an 'error'
    listener to the facade is the action [Listen], and a call of one of
    them through [CallFacade] stands for a use that neither adds nor
    removes an 'error' listener nor emits 'error'. *)
Definition emitterMethods : list string :=
  [ "emit"; "addListener"; "setMaxListeners"; "on"; "once";
    "removeListener"; "removeAllListeners"; "listeners" ].

Section Executions.

Variable finish_rec : nat → Value → TermCb → M unit.

Definition complete (i : nat) (vals : list Value) : M unit :=
  λ s, match inflight s !! i with
       | Some c =>
           (modify (λ s, set_inflight (delete i (inflight s)) s) ;;;
            match last (arguments c) with
            | Some (AFn f) => invoke finish_rec f vals
            | _ => ret tt
            end) s
       | None => (inl tt, s)
       end.

Definition tick (i : nat) : M unit :=
  λ s, match timers s !! i with
       | Some w =>
           (modify (λ s, set_timers (delete i (timers s)) s) ;;;
            check finish_rec w) s
       | None => (inl tt, s)
       end.

Definition handler (act : Action) : M unit :=
  match act with
  | CallFacade m a =>
      if bool_decide (m ∈ emitterMethods) then ret tt
      else apply_facade finish_rec m (inject <$> a)
  | CallHandle m a => apply_raw finish_rec Connection m (inject <$> a)
  | CallStatement n m a =>
      if bool_decide (m ∈ prohibitedMethods) then ret tt
      else wrapDbMethod finish_rec (Statement n) m (inject <$> a)
  | Listen => modify (set_listening true)
  | Complete i vals => complete i vals
  | Tick i => tick i
  | ErrorEvent e =>
      apply_raw finish_rec Connection "emit" [AStr "error"; AVal e]
  end.

(** One turn of the event loop; an exception that escapes is logged. *)
Definition step (s : State) (act : Action) : State :=
  match handler act s with
  | (inl _, s') => s'
  | (inr x, s') => snd (record (Threw x) s')
  end.

Definition run (acts : list Action) (s : State) : State :=
  foldl step s acts.

End Executions.

(** Closing the cycle: the call of [finishTransaction] inside the
    continuation of [beginTransaction] is [finishTransaction] again, up
    to [depth] nested calls. *)
Fixpoint finishTransaction_at (depth : nat) : nat → Value → TermCb → M unit :=
  match depth with
  | O => λ _ _ _, throw StackExhausted
  | S d => finishTransaction (finishTransaction_at d)
  end.

Definition stack_depth : nat := 64.

Definition program : nat → Value → TermCb → M unit :=
  finishTransaction_at stack_depth.

(** The methods of a node-sqlite3 [Database] and the facade over them. *)
Definition sqlite3_methods : list string :=
  [ "close"; "configure"; "serialize"; "parallelize"; "interrupt";
    "exec"; "run"; "get"; "all"; "each"; "map"; "prepare";
    "loadExtension"; "wait";
    "emit"; "addListener"; "setMaxListeners"; "on"; "once";
    "removeListener"; "removeAllListeners"; "listeners" ].

Definition fresh : State := TransactionDatabase sqlite3_methods.

(** * Properties *)

Arguments apply_raw : simpl never.
Arguments apply_facade : simpl never.
Arguments wrapDbMethod : simpl never.
Arguments beginTransaction : simpl never.
Arguments handle_rollback : simpl never.
Arguments finishTransaction : simpl never.
Arguments commit : simpl never.
Arguments rollback : simpl never.
Arguments check : simpl never.
Arguments native : simpl never.
Arguments _exec : simpl never.


Ltac munfold :=
  unfold bind, ret, gets, modify, when, throw, record, call_term, call in *.

(** ** The wait gate passes no error *)

(** The three continuations with their [if (err)] statement removed. *)
Definition continuation_without_err_branch (w : Waiter) : M unit :=
  match w with
  | WaitBegin tid => _exec "BEGIN;" (BeginDone tid)
  | WaitCommit tid cb => _exec "COMMIT;" (CommitDone tid cb)
  | WaitRollback tid cb => _exec "ROLLBACK;" (RollbackDone tid cb)
  end.

Definition retry_later (w : Waiter) : M unit :=
  record Retry ;;; modify (λ s, set_timers (timers s ++ [w]) s).

Lemma continuation_no_args r w :
  continuation r w [] = continuation_without_err_branch w.
Proof. destruct w; reflexivity. Qed.

Lemma check_unfold r w s :
  check r w s =
  if bool_decide (_lock s = 0) then continuation_without_err_branch w s
  else retry_later w s.
Proof.
  unfold check. rewrite continuation_no_args. reflexivity.
Qed.

(** The argument [finish_rec] of the functions stands for a call that is
    never made: the functions are the same whatever it is. *)
Lemma run_irrelevant r1 r2 : run r1 = run r2.
Proof. reflexivity. Qed.

(** C10. [_wait] calls its continuation with no argument, and only when
    it reads the counter as zero; otherwise it sets a timer to look
    again.  The [err] parameter of the three continuations is therefore
    [undefined], so they do what they would do without their [if (err)]
    statement.  Given an error, that statement would call the callback
    of [beginTransaction] (through [finishTransaction] in the case of
    BEGIN), not the [cb] of commit or rollback; no execution depends on
    what it would have done. *)
Theorem wait_passes_no_error :
  (∀ r w s,
     _wait r w s =
     if bool_decide (_lock s = 0) then continuation r w [] s
     else retry_later w s) ∧
  (∀ r s i,
     tick r i s =
     match timers s !! i with
     | Some w =>
         let s' := set_timers (delete i (timers s)) s in
         if bool_decide (_lock s = 0) then continuation r w [] s'
         else retry_later w s'
     | None => (inl tt, s)
     end) ∧
  param 0 [] = VUndefined ∧
  (∀ r w, continuation r w [] = continuation_without_err_branch w) ∧
  (∀ r tid cb tcb msg s,
     continuation r (WaitCommit tid cb) [VError msg] s =
     (call (callback_of tid s) [VError msg] ;;;
      _exec "COMMIT;" (CommitDone tid cb)) s ∧
     continuation r (WaitRollback tid tcb) [VError msg] s =
     (call (callback_of tid s) [VError msg] ;;;
      _exec "ROLLBACK;" (RollbackDone tid tcb)) s ∧
     continuation r (WaitBegin tid) [VError msg] s =
     (r tid (VError msg) (ByCaller (callback_of tid s)) ;;;
      _exec "BEGIN;" (BeginDone tid)) s) ∧
  (∀ r1 r2 acts s, run r1 acts s = run r2 acts s).
Proof.
  split; [|split; [|split; [|split; [|split]]]].
  - intros r w s. reflexivity.
  - intros r s i. unfold tick. destruct (timers s !! i); reflexivity.
  - reflexivity.
  - apply continuation_no_args.
  - intros r tid cb tcb msg s. repeat split.
  - intros r1 r2 acts s. now rewrite (run_irrelevant r1 r2).
Qed.

(** ** Invariants of handlers *)

(** [keeps I m]: the handler [m] takes states satisfying [I] to states
    satisfying [I], whether it returns or throws. *)
Definition keeps {A} (I : State → Prop) (m : M A) : Prop :=
  ∀ s, I s → I (snd (m s)).

Section Keeps.

Context (I : State → Prop).

Lemma keeps_ret {A} (a : A) : keeps I (ret a).
Proof. intros s H. exact H. Qed.

Lemma keeps_throw {A} x : keeps I (@throw A x).
Proof. intros s H. exact H. Qed.

Lemma keeps_gets {A} (f : State → A) : keeps I (gets f).
Proof. intros s H. exact H. Qed.

Lemma keeps_bind {A B} (m : M A) (k : A → M B) :
  keeps I m → (∀ a, keeps I (k a)) → keeps I (bind m k).
Proof.
  intros Hm Hk s H. unfold bind. specialize (Hm s H).
  destruct (m s) as [[a|x] s']; simpl in *; [now apply Hk | exact Hm].
Qed.

Lemma keeps_when b (m : M unit) : keeps I m → keeps I (when b m).
Proof. intros Hm. destruct b; [exact Hm | apply keeps_ret]. Qed.

Lemma keeps_modify f : (∀ s, I s → I (f s)) → keeps I (modify f).
Proof. intros Hf s H. now apply Hf. Qed.

End Keeps.

(** Decompose a goal [keeps I m] along the structure of [m]; what is
    left are the primitive updates and the calls of named functions. *)
Ltac keeps_step :=
  match goal with
  | |- keeps _ (bind _ _) => apply keeps_bind; [|intros ?]
  | |- keeps _ (ret _) => apply keeps_ret
  | |- keeps _ (throw _) => apply keeps_throw
  | |- keeps _ (gets _) => apply keeps_gets
  | |- keeps _ (when _ _) => apply keeps_when
  | |- keeps _ (if ?b then _ else _) => destruct b
  | |- keeps _ (match ?x with _ => _ end) => destruct x
  end.

Ltac by_keeps :=
  match goal with
  | Hs : ?I ?s |- ?I (snd (?m ?s)) => refine ((_ : keeps I m) s Hs)
  end.

(** ** What the primitives do to the state *)

Definition logged (e : Event) (s : State) : State :=
  set_log ({| event := e; lock_then := _lock s |} :: log s) s.

Definition outstanding (o : Object) (m : string) (a : list Arg) (s : State)
  : State :=
  set_inflight (inflight s ++ [{| target := o; name := m; arguments := a |}]) s.

Lemma record_eq e s : record e s = (inl tt, logged e s).
Proof. reflexivity. Qed.

Lemma native_eq o m a s :
  native o m a s = (inl tt, outstanding o m a (logged (Dispatch o m a) s)).
Proof. reflexivity. Qed.

Lemma exec_eq stmt f s :
  _exec stmt f s =
  (inl tt, outstanding Connection "exec" [AStr stmt; AFn f] (logged (Issue stmt) s)).
Proof. reflexivity. Qed.

(** ** Properties stable under every update the source makes

    A property of the state that survives each single update the source
    performs, in the form the source performs it, survives every handler
    and hence every execution.  Issuing a statement is the one update
    that may rely on the counter being zero. *)

Definition is_issue (e : Event) : bool :=
  match e with Issue _ => true | _ => false end.

Section Stable.

Variable I : State → Prop.
Variable r : nat → Value → TermCb → M unit.

Hypothesis I_record : ∀ e s, is_issue e = false → I s → I (logged e s).
Hypothesis I_issue : ∀ stmt s, _lock s = 0 → I s → I (logged (Issue stmt) s).
Hypothesis I_outstanding : ∀ o m a s, I s → I (outstanding o m a s).
Hypothesis I_completed : ∀ i s, I s → I (set_inflight (delete i (inflight s)) s).
Hypothesis I_timer : ∀ w s, I s → I (set_timers (timers s ++ [w]) s).
Hypothesis I_fired : ∀ i s, I s → I (set_timers (delete i (timers s)) s).
Hypothesis I_queue : ∀ q s, I s → I (set_queue q s).
Hypothesis I_lock : ∀ z s, I s → I (set_lock z s).
Hypothesis I_listening : ∀ s, I s → I (set_listening true s).
Hypothesis I_begin :
  ∀ a s, I s → I (set_activations (activations s ++ [a]) s).
Hypothesis I_finish :
  ∀ tid s, I s →
    I (set_activations (alter finish_activation tid (activations s)) s).
Hypothesis I_current :
  ∀ v s, v = VNull ∨ v = VRef Connection → I s → I (set_currentTransaction v s).
Hypothesis I_commit :
  ∀ tid s, I s → I (set_db (<["commit" := CommitOf tid]> (db s)) s).
Hypothesis I_rollback :
  ∀ tid s, I s → I (set_db (<["rollback" := RollbackOf tid]> (db s)) s).

Lemma stable_record e : is_issue e = false → keeps I (record e).
Proof. intros He s H. now apply I_record. Qed.

Ltac stable_prim :=
  first [ apply stable_record; reflexivity
        | apply keeps_modify; intros ? ?;
          first [ apply I_outstanding | apply I_completed | apply I_timer
                | apply I_fired | apply I_queue | apply I_lock
                | apply I_listening | apply I_begin | apply I_finish
                | apply I_current; auto | apply I_commit | apply I_rollback ];
          assumption ].

Ltac stable_auto :=
  repeat first [ keeps_step | stable_prim
               | match goal with H : _ |- _ => apply H end ].

Lemma stable_native o m a : keeps I (native o m a).
Proof. intros s H. rewrite native_eq. simpl. auto. Qed.

Lemma stable_call cb vals : keeps I (call cb vals).
Proof. unfold call. stable_auto. Qed.

Lemma stable_call_term cb vals : keeps I (call_term cb vals).
Proof. unfold call_term. destruct cb; try apply stable_call. apply keeps_ret. Qed.

(** The one place a statement is issued: [check] has just read zero. *)
Lemma stable_check w : keeps I (check r w).
Proof.
  intros s H. rewrite check_unfold. case_bool_decide as Hz.
  - destruct w; unfold continuation_without_err_branch; rewrite exec_eq; simpl; auto.
  - unfold retry_later. by_keeps. stable_auto.
Qed.

Lemma stable_commit tid cb : keeps I (commit r tid cb).
Proof.
  intros s H. unfold commit, _wait. destruct (is_finished tid s); by_keeps.
  - apply stable_call.
  - apply stable_check.
Qed.

Lemma stable_rollback tid cb : keeps I (rollback r tid cb).
Proof.
  intros s H. unfold rollback, _wait. destruct (is_finished tid s); by_keeps.
  - apply stable_call_term.
  - apply stable_check.
Qed.

Lemma stable_handle_rollback f : keeps I (handle_rollback r f).
Proof.
  intros s H. unfold handle_rollback.
  destruct (db s !! "rollback") as [[]|]; by_keeps;
    first [ apply stable_rollback | apply stable_native | apply keeps_throw ].
Qed.

Lemma stable_error_listener this : keeps I (error_listener r this).
Proof.
  unfold error_listener. apply keeps_bind; [apply keeps_gets|]. intros rd.
  destruct (negb (read_isNull rd)); [|apply keeps_ret].
  destruct rd as [[| | |[]]|];
    first [apply stable_handle_rollback | apply keeps_throw].
Qed.

Lemma stable_intercepted_emit a : keeps I (intercepted_emit r a).
Proof.
  unfold intercepted_emit. apply keeps_bind; [apply keeps_gets|]. intros l.
  apply keeps_bind.
  - destruct (_ && _); [apply keeps_throw | stable_prim].
  - intros _. apply keeps_when, stable_error_listener.
Qed.

Lemma stable_apply_raw o m a : keeps I (apply_raw r o m a).
Proof.
  destruct o; unfold apply_raw; [| apply stable_native | apply keeps_throw].
  intros s H. destruct (db s !! m) as [[]|]; by_keeps;
    first [ apply stable_native | apply stable_intercepted_emit
          | apply stable_commit | apply stable_rollback | apply keeps_throw ].
Qed.

Lemma stable_wrapDbMethod o m a : keeps I (wrapDbMethod r o m a).
Proof. unfold wrapDbMethod. pose proof stable_apply_raw. stable_auto. Qed.

Lemma stable_beginTransaction a : keeps I (beginTransaction r a).
Proof. unfold beginTransaction, _wait. pose proof stable_check. stable_auto. Qed.

Lemma stable_apply_facade m a : keeps I (apply_facade r m a).
Proof.
  intros s H. unfold apply_facade.
  destruct (own s !! m) as [[]|]; [..|case_bool_decide]; by_keeps;
    first [ apply stable_native | apply stable_wrapDbMethod
          | apply stable_beginTransaction | apply keeps_throw ].
Qed.

Lemma stable_apply_item i : keeps I (apply_item r i).
Proof.
  unfold apply_item.
  destruct (object i); first [apply stable_apply_raw | apply stable_apply_facade].
Qed.

Lemma stable_runQueue_loop n : keeps I (runQueue_loop r n).
Proof.
  induction n as [|n IH]; intros s H; simpl.
  - destruct (queue s); exact H.
  - destruct (queue s) as [|item rest]; [exact H|]. by_keeps.
    pose proof (stable_apply_item item). stable_auto.
Qed.

Lemma stable_runQueue : keeps I (_runQueue r).
Proof. intros s H. unfold _runQueue. by_keeps. apply stable_runQueue_loop. Qed.

Lemma stable_finishTransaction tid e cb :
  keeps I (finishTransaction r tid e cb).
Proof.
  unfold finishTransaction.
  pose proof stable_runQueue. pose proof (stable_call_term cb [e]). stable_auto.
Qed.

Lemma stable_invoke f vals : keeps I (invoke r f vals).
Proof.
  induction f; simpl.
  - stable_prim.
  - intros s H. case_bool_decide; [exact H|]. by_keeps. stable_auto.
  - apply keeps_when, stable_apply_raw.
  - apply keeps_bind; [apply keeps_gets|]. intros c.
    destruct (truthy _); apply stable_call.
  - destruct (truthy _);
      [apply stable_handle_rollback | apply stable_finishTransaction].
  - apply stable_finishTransaction.
  - apply stable_call.
  - apply keeps_ret.
Qed.

Lemma stable_handler act : keeps I (handler r act).
Proof.
  destruct act; simpl.
  - case_bool_decide; [apply keeps_ret | apply stable_apply_facade].
  - apply stable_apply_raw.
  - case_bool_decide; [apply keeps_ret | apply stable_wrapDbMethod].
  - stable_prim.
  - intros s H. unfold complete. destruct (inflight s !! i); [|exact H].
    by_keeps. apply keeps_bind; [stable_prim|]. intros _.
    destruct (last _) as [[| |f]|]; first [apply stable_invoke | apply keeps_ret].
  - intros s H. unfold tick. destruct (timers s !! i); [|exact H].
    by_keeps. apply keeps_bind; [stable_prim | intros _; apply stable_check].
  - apply stable_apply_raw.
Qed.

Lemma stable_step s act : I s → I (step r s act).
Proof.
  intros H. unfold step. pose proof (stable_handler act s H) as H'.
  destruct (handler r act s) as [[u|x] s']; simpl in *; [exact H'|].
  now apply I_record.
Qed.

Lemma stable_run acts s : I s → I (run r acts s).
Proof.
  revert s. induction acts as [|act acts IH]; intros s H; simpl; [exact H|].
  apply IH, stable_step, H.
Qed.

End Stable.

(** ** Transaction boundaries wait for the counter *)

(** An entry respects the gate when, if it is a statement issued through
    [_exec], the counter was zero at that moment. *)
Definition gated (e : Entry) : Prop :=
  match event e with
  | Issue _ => lock_then e = 0
  | _ => True
  end.

Definition all_gated (s : State) : Prop := Forall gated (log s).

Lemma gated_run r acts s : all_gated s → all_gated (run r acts s).
Proof.
  apply stable_run; unfold all_gated; simpl; intros; auto.
  constructor; [|assumption]. unfold gated. simpl.
  destruct e; try exact Logic.I; discriminate.
Qed.

(** C1. In every execution of a facade built by the constructor, whatever
    the callers, the connection and the timers do, each BEGIN, COMMIT or
    ROLLBACK handed to [_exec] was handed over at a moment when [_lock]
    was exactly zero; [_exec] is reached only through [check]. *)
Theorem boundary_statements_wait_for_zero r methods acts :
  Forall gated (log (run r acts (TransactionDatabase methods))).
Proof.
  apply gated_run. unfold all_gated. simpl. constructor; [exact Logic.I | constructor].
Qed.

(** ** The "already finished" errors *)

Definition commit_refused : Value :=
  VError "Transaction is already finished. Can't do commit().".

Definition rollback_refused : Value :=
  VError "Transaction is already finished. Can't do rollback().".

(** ** A failed BEGIN *)

(** What the callback of [_exec("BEGIN;")] does with an error: it calls
    the caller's callback and touches nothing else. *)
Lemma begin_failure_only_calls_back r tid vals s :
  truthy (param 0 vals) = true →
  invoke r (BeginDone tid) vals s = call (callback_of tid s) [param 0 vals] s.
Proof. intros H. simpl. munfold. now rewrite H. Qed.

(** C6, evaluated.  [beginTransaction(f0)] on a fresh facade, BEGIN
    fails: [f0] is called with the error, and [currentTransaction] still
    refers to the connection; a statement submitted afterwards is queued
    instead of being run. *)
Theorem failed_begin_stays_registered :
  let s := run program [CallFacade "beginTransaction" [UFn 0];
                        Complete 0 [VError "SQLITE_BUSY"]] fresh in
  (event <$> head (log s)) = Some (Called 0 [VError "SQLITE_BUSY"]) ∧
  currentTransaction s = VRef Connection ∧
  inflight s = [] ∧ timers s = [] ∧
  let s' := step program s (CallFacade "run" [UStr "INSERT"]) in
  log s' = log s ∧ inflight s' = [] ∧ length (queue s') = 1%nat.
Proof. vm_compute. auto 10. Qed.

(** ** The 'error' listener *)

(** Called the way an EventEmitter calls it, with [this] the connection,
    the listener reads [currentTransaction] off the connection, where it
    is never [null], and then fails on it. *)
Lemma error_listener_throws r s :
  error_listener r Connection s = (inr TypeError, s).
Proof.
  unfold error_listener, read_currentTransaction. munfold.
  now destruct (db s !! "currentTransaction").
Qed.

(** Bound to the facade it would roll the transaction back. *)
Lemma error_listener_on_facade r s :
  currentTransaction s = VRef Connection →
  error_listener r Facade s = handle_rollback r Ignore s.
Proof.
  intros H. unfold error_listener, read_currentTransaction. munfold.
  now rewrite H.
Qed.

(** C4, evaluated.  A transaction is active, the facade has an 'error'
    listener, the connection emits 'error': the event is passed on, the
    constructor's listener throws, and no ROLLBACK is issued; the
    transaction stays active. *)
Theorem error_event_issues_no_rollback :
  let s := run program [Listen; CallFacade "beginTransaction" [UFn 0];
                        Complete 0 [VNull]] fresh in
  let e := VError "SQLITE_IOERR" in
  currentTransaction s = VRef Connection ∧
  step program s (ErrorEvent e) =
    logged (Threw TypeError) (logged (Emitted [AStr "error"; AVal e]) s).
Proof. vm_compute. auto. Qed.

(** ** The drain of the queue *)

(** An item whose method is a native one of the connection or of a
    statement: dispatching it only hands the call over. *)
Definition native_item (s : State) (i : Item) : Prop :=
  is_transaction (type i) = false ∧
  match object i with
  | Connection => db s !! method i = Some Native
  | Statement _ => True
  | Facade => False
  end.

(** What releasing one such item does: the counter goes up first if the
    item is a locking one, then the call is handed to the connection and
    left outstanding. *)
Definition release (s : State) (i : Item) : State :=
  outstanding (object i) (method i) (args i)
    (logged (Dispatch (object i) (method i) (args i))
       (if is_lock (type i) then set_lock (_lock s + 1) s else s)).

Lemma set_queue_same s : set_queue (queue s) s = s.
Proof. now destruct s. Qed.

Lemma release_set_queue q s i :
  release (set_queue q s) i = set_queue q (release s i).
Proof. unfold release. now destruct (is_lock (type i)). Qed.

Lemma db_release s i : db (release s i) = db s.
Proof. unfold release. now destruct (is_lock (type i)). Qed.

Lemma native_item_db s s' i : db s' = db s → native_item s i → native_item s' i.
Proof. unfold native_item. intros ->. auto. Qed.

Lemma native_items_release s i l :
  Forall (native_item s) l → Forall (native_item (release s i)) l.
Proof.
  intros H. eapply Forall_impl; [exact H|].
  intros x. apply native_item_db, db_release.
Qed.

Section Drain.

Variable r : nat → Value → TermCb → M unit.

Lemma apply_item_native s i :
  native_item s i →
  apply_item r i s =
  (inl tt, outstanding (object i) (method i) (args i)
             (logged (Dispatch (object i) (method i) (args i)) s)).
Proof.
  unfold native_item, apply_item, apply_raw. intros [_ H].
  destruct (object i); [now rewrite H | reflexivity | contradiction].
Qed.

(** One turn of the loop on a native item. *)
Lemma runQueue_loop_native n s i rest :
  queue s = i :: rest → native_item s i →
  runQueue_loop r (S n) s = runQueue_loop r n (release (set_queue rest s) i).
Proof.
  intros Hq Hi. simpl. rewrite Hq. munfold. unfold release.
  destruct Hi as [Ht Ho].
  destruct (is_lock (type i)); simpl;
    (rewrite apply_item_native;
     [| split; [exact Ht | destruct (object i); auto]]);
    now rewrite Ht.
Qed.

(** The loop on a run of native items: they are released in order and
    the loop goes on with what follows them. *)
Lemma runQueue_loop_prefix pre : ∀ n s rest,
  queue s = pre ++ rest → Forall (native_item s) pre →
  runQueue_loop r (length pre + n) s =
  runQueue_loop r n (foldl release (set_queue rest s) pre).
Proof.
  induction pre as [|i pre IH]; intros n s rest Hq Hpre;
    cbn [length Nat.add foldl app] in *.
  - now rewrite <- Hq, set_queue_same.
  - inversion Hpre as [|? ? Hi Hrest]; subst.
    rewrite (runQueue_loop_native _ s i (pre ++ rest)) by assumption.
    rewrite IH with (rest := rest).
    + f_equal. f_equal. now rewrite !release_set_queue.
    + now rewrite release_set_queue.
    + apply native_items_release. eapply Forall_impl; [exact Hrest|].
      intros x. now apply native_item_db.
Qed.

Lemma queue_foldl_release pre s : queue (foldl release s pre) = queue s.
Proof.
  revert s. induction pre as [|i pre IH]; intros s; simpl; [reflexivity|].
  rewrite IH. unfold release. now destruct (is_lock (type i)).
Qed.

(** The queue holds only native items: all are released, the queue is
    left empty. *)
Lemma runQueue_all_native s :
  Forall (native_item s) (queue s) →
  _runQueue r s = (inl tt, foldl release (set_queue [] s) (queue s)).
Proof.
  intros H. unfold _runQueue.
  replace (length (queue s)) with (length (queue s) + 0)%nat by lia.
  rewrite (runQueue_loop_prefix (queue s) 0 s []); [|now rewrite app_nil_r | exact H].
  simpl. now rewrite queue_foldl_release.
Qed.

(** Native items, then a transaction request: the items before it are
    released, the request is dispatched, and what follows it stays in
    the queue. *)
Lemma runQueue_until_transaction s pre tx post :
  queue s = pre ++ tx :: post → Forall (native_item s) pre →
  type tx = Transaction →
  _runQueue r s =
  (apply_item r tx ;;; ret tt) (foldl release (set_queue post s) pre).
Proof.
  intros Hq Hpre Htx. unfold _runQueue. rewrite Hq, length_app. simpl.
  rewrite (runQueue_loop_prefix pre _ s (tx :: post)) by assumption.
  simpl. rewrite queue_foldl_release. simpl. rewrite Htx. simpl. munfold.
  assert (Hs : set_queue post (foldl release (set_queue (tx :: post) s) pre) =
               foldl release (set_queue post s) pre).
  { clear. revert s. induction pre as [|i pre IH]; intros s; simpl; [reflexivity|].
    rewrite !release_set_queue.
    specialize (IH (release s i)). exact IH. }
  now rewrite Hs.
Qed.

End Drain.

(** The state [finishTransaction] runs the queue in: the activation is
    marked finished and [currentTransaction] is cleared. *)
Definition closed_state (tid : nat) (s : State) : State :=
  set_currentTransaction VNull
    (set_activations (alter finish_activation tid (activations s)) s).

(** C3. A COMMIT completing without error and a ROLLBACK completing
    run [finishTransaction].  [finishTransaction] runs the queue once, in the state where the
    transaction is already closed, and calls the caller's callback after
    it.  The run releases the items from the head in order, each handed
    to the connection and left outstanding, [_lock] going up just before
    a locking item and only for those (see [release]).  Without a
    transaction request the queue ends empty; at the first transaction
    request, that request is dispatched and the run stops, leaving what
    follows it in the queue. *)
Theorem completion_drains_queue r tid e cb s pre
  (Hpre : Forall (native_item s) pre) :
  (∀ c, invoke r (CommitDone tid c) [VNull] s =
        finishTransaction r tid VNull (ByCaller c) s) ∧
  invoke r (RollbackDone tid cb) [e] s = finishTransaction r tid e cb s ∧
  (queue s = pre →
   finishTransaction r tid e cb s =
   call_term cb [e] (foldl release (set_queue [] (closed_state tid s)) pre)) ∧
  (∀ tx post, type tx = Transaction → queue s = pre ++ tx :: post →
   finishTransaction r tid e cb s =
   (apply_item r tx ;;; call_term cb [e])
     (foldl release (set_queue post (closed_state tid s)) pre)) ∧
  (∀ a s', own s' !! "beginTransaction" = None →
   apply_item r {| type := Transaction; object := Facade;
                   method := "beginTransaction"; args := a |} s' =
   beginTransaction r a s').
Proof.
  assert (Hpre' : Forall (native_item (closed_state tid s)) pre).
  { eapply Forall_impl; [exact Hpre|]. intros x. now apply native_item_db. }
  split; [reflexivity|]. split; [reflexivity|]. split; [|split].
  - intros Hq. unfold finishTransaction. munfold. fold (closed_state tid s).
    assert (Hq' : queue (closed_state tid s) = pre) by exact Hq.
    rewrite runQueue_all_native; now rewrite Hq'.
  - intros tx post Htx Hq. unfold finishTransaction. munfold.
    fold (closed_state tid s).
    rewrite (runQueue_until_transaction r (closed_state tid s) pre tx post
               Hq Hpre' Htx).
    munfold. now destruct (apply_item r tx _) as [[[]|x] s1].
  - intros a s' H. unfold apply_item, apply_facade. simpl. now rewrite H.
Qed.

(** ** A failed COMMIT *)

(** The [finished] flag of an activation, once set, stays set. *)
Lemma is_finished_begin tid a s :
  is_finished tid s = true →
  is_finished tid (set_activations (activations s ++ [a]) s) = true.
Proof.
  unfold is_finished. simpl. intros H.
  destruct (activations s !! tid) as [x|] eqn:E; [|discriminate].
  now rewrite (lookup_app_l_Some _ _ _ _ E).
Qed.

Lemma is_finished_finish tid tid' s :
  is_finished tid s = true →
  is_finished tid
    (set_activations (alter finish_activation tid' (activations s)) s) = true.
Proof.
  unfold is_finished. simpl. intros H. rewrite list_lookup_alter.
  case_decide; [subst|exact H]. now destruct (activations s !! tid).
Qed.

Lemma finished_stays_runQueue r tid s :
  is_finished tid s = true → is_finished tid (snd (_runQueue r s)) = true.
Proof.
  revert s.
  apply (stable_runQueue (λ s, is_finished tid s = true) r); intros;
    first [assumption | now apply is_finished_begin].
Qed.

Lemma closed_state_finished tid s :
  (tid < length (activations s))%nat → is_finished tid (closed_state tid s) = true.
Proof.
  intros H. unfold is_finished, closed_state. simpl.
  rewrite list_lookup_alter_eq.
  destruct (lookup_lt_is_Some_2 _ _ H) as [a ->]. reflexivity.
Qed.

(** The rollback a failed commit asks for. *)
Definition rollback_after (tid id : nat) (e : Value) : TermCb :=
  AfterFailedCommit (Fn id) e.

(** C5, as the code has it.  The callback of COMMIT is called with an
    error [e] while the handle carries the rollback of the same
    transaction.  If the transaction is still open, a rollback is
    requested: ROLLBACK is issued as soon as the counter is read as
    zero, and when it completes, whatever its own outcome, the
    transaction is closed (flag set, [currentTransaction] cleared), the
    queue is run, and only then is the caller's callback called, with
    [e].  If the transaction has been closed in the meantime, the
    callback is called with [e] at once and nothing is issued. *)
Theorem failed_commit_closes_transaction r tid id e s
  (He : truthy e = true)
  (Hrb : db s !! "rollback" = Some (RollbackOf tid)) :
  invoke r (CommitDone tid (Fn id)) [e] s =
    (if is_finished tid s then (inl tt, logged (Called id [e]) s)
     else if bool_decide (_lock s = 0)
          then _exec "ROLLBACK;" (RollbackDone tid (rollback_after tid id e)) s
          else retry_later (WaitRollback tid (rollback_after tid id e)) s) ∧
  (∀ s1, tick r 0 (set_timers [WaitRollback tid (rollback_after tid id e)] s1) =
         if bool_decide (_lock s1 = 0)
         then _exec "ROLLBACK;" (RollbackDone tid (rollback_after tid id e))
                (set_timers [] s1)
         else retry_later (WaitRollback tid (rollback_after tid id e))
                (set_timers [] s1)) ∧
  (∀ e' s2, (tid < length (activations s2))%nat →
     invoke r (RollbackDone tid (rollback_after tid id e)) [e'] s2 =
       (_runQueue r ;;; record (Called id [e])) (closed_state tid s2) ∧
     is_finished tid (closed_state tid s2) = true ∧
     currentTransaction (closed_state tid s2) = VNull ∧
     is_finished tid
       (snd (invoke r (RollbackDone tid (rollback_after tid id e)) [e'] s2)) = true).
Proof.
  split; [|split].
  - simpl. unfold param. simpl. rewrite He.
    unfold handle_rollback. rewrite Hrb. unfold rollback, _wait. simpl.
    destruct (is_finished tid s); [reflexivity|].
    now rewrite check_unfold.
  - intros s1. reflexivity.
  - intros e' s2 Hlt. pose proof (closed_state_finished tid s2 Hlt) as Hf.
    split; [reflexivity|]. split; [exact Hf|]. split; [reflexivity|].
    simpl. unfold finishTransaction. munfold. fold (closed_state tid s2).
    pose proof (finished_stays_runQueue r tid _ Hf) as Hs.
    destruct (_runQueue r (closed_state tid s2)) as [[u|x] s3]; exact Hs.
Qed.

(** C5 as stated fails: a transaction is begun, [commit] is called twice
    before the first COMMIT completes (the flag is not set at either
    call); the first COMMIT succeeds and the second fails.  The second
    callback receives the COMMIT error, and no ROLLBACK was issued or is
    pending. *)
Lemma failed_commit_without_rollback :
  let before := run program [CallFacade "beginTransaction" [UFn 0];
                             Complete 0 [VNull];
                             CallHandle "commit" [UFn 1]] fresh in
  let s := run program [CallHandle "commit" [UFn 2];
                        Complete 0 [VNull];
                        Complete 0 [VError "no transaction is active"]] before in
  is_finished 0 before = false ∧
  (event <$> head (log s)) = Some (Called 2 [VError "no transaction is active"]) ∧
  ¬ In (Issue "ROLLBACK;") (map event (log s)) ∧
  inflight s = [] ∧ timers s = [].
Proof.
  vm_compute. repeat split; try reflexivity.
  intros H. repeat (destruct H as [H|H]; [discriminate|]). exact H.
Qed.

(** ** Well-formed states

    What every state reached from the constructor satisfies, whatever
    the callers do; with [strict] set, also what holds as long as the
    callers do not ask for a commit or rollback while one is under way. *)

Definition last_fn (a : list Arg) : option FnVal :=
  match last a with
  | Some (AFn f) => Some f
  | _ => None
  end.

(** Functions a caller can pass, and the closures that behave like them. *)
Definition plain_fn (f : FnVal) : bool :=
  match f with
  | UserF _ | ForwardError | Resume _ _ | Ignore => true
  | _ => false
  end.

Definition plain (a : list Arg) : bool :=
  match last_fn a with
  | Some f => plain_fn f
  | None => true
  end.

(** Arguments whose last one is a [newCallback] around a plain function. *)
Definition hijacked (a : list Arg) : bool :=
  match last_fn a with
  | Some (NewCallback g) => plain_fn g
  | _ => false
  end.

Definition counted (c : Call) : bool :=
  match last_fn (arguments c) with
  | Some (NewCallback _) => true
  | _ => false
  end.

(** The number of outstanding calls that will run a [newCallback]. *)
Definition count_locking (l : list Call) : nat := length (filter (λ c, counted c = true) l).

Definition call_ok (c : Call) : bool :=
  match last_fn (arguments c) with
  | Some (NewCallback g) => plain_fn g
  | _ => true
  end.

Definition source_ok (methods : list string) (o : Object) (m : string) : Prop :=
  match o with
  | Connection => m ∈ methods
  | Statement _ => True
  | Facade => False
  end.

Definition item_ok (methods : list string) (i : Item) : Prop :=
  match object i with
  | Facade => type i = Transaction ∧ plain (args i) = true
  | o =>
      if is_lock (type i)
      then locking (method i) = true ∧ source_ok methods o (method i) ∧
           hijacked (args i) = true
      else plain (args i) = true
  end.

(** The methods on the connection object after [n] activations of
    [beginTransaction]. *)
Definition handle_methods (methods : list string) (n : nat)
  : gmap string Method :=
  match n with
  | O => <["emit" := InterceptedEmit]> (database methods)
  | S k =>
      <["rollback" := RollbackOf k]>
        (<["commit" := CommitOf k]>
           (<["emit" := InterceptedEmit]> (database methods)))
  end.

Definition facade_methods (methods : list string) : gmap string Method :=
  <["prepare" := PrepareWrapper]> (wrapObject Connection (database methods) ∅).

(** The activation a pending commit or rollback belongs to. *)
Definition waiter_tid (w : Waiter) : option nat :=
  match w with
  | WaitBegin _ => None
  | WaitCommit tid _ | WaitRollback tid _ => Some tid
  end.

Definition call_tid (c : Call) : option nat :=
  match last_fn (arguments c) with
  | Some (CommitDone tid _) | Some (RollbackDone tid _) => Some tid
  | _ => None
  end.

Definition pending (s : State) : list nat :=
  omap waiter_tid (timers s) ++ omap call_tid (inflight s).

(** No commit or rollback is under way. *)
Definition quiet (s : State) : bool := bool_decide (pending s = []).

Definition all_finished (l : list Activation) : Prop :=
  Forall (λ a, finished a = true) l.

Definition one_open (l : list Activation) : Prop :=
  ∃ pre a, l = pre ++ [a] ∧ finished a = false ∧ all_finished pre.

Definition tx_inv (s : State) : Prop :=
  Forall (λ k, S k = length (activations s)) (pending s) ∧
  (length (pending s) ≤ 1)%nat ∧
  match currentTransaction s with
  | VNull => all_finished (activations s) ∧ pending s = []
  | _ => one_open (activations s)
  end.

Record inv (methods : list string) (strict : bool) (s : State) : Prop := {
  inv_db : db s = handle_methods methods (length (activations s));
  inv_own : own s = facade_methods methods;
  inv_current :
    currentTransaction s = VNull ∨ currentTransaction s = VRef Connection;
  inv_queue : Forall (item_ok methods) (queue s);
  inv_inflight : Forall (λ c, call_ok c = true) (inflight s);
  inv_lock : _lock s = Z.of_nat (count_locking (inflight s));
  inv_tx : strict = true → tx_inv s
}.

(** *** Tables *)

Lemma database_lookup methods m :
  database methods !! m = if bool_decide (m ∈ methods) then Some Native else None.
Proof.
  unfold database. case_bool_decide as H.
  - apply elem_of_list_to_map_1'.
    + intros y Hy. apply list_elem_of_fmap in Hy as [x [Hx _]]. congruence.
    + apply list_elem_of_fmap. now exists m.
  - apply not_elem_of_list_to_map_1. rewrite <- list_fmap_compose.
    intros Hin. apply list_elem_of_fmap in Hin as [x [Hx Hin]]. simpl in Hx.
    now subst.
Qed.

Lemma handle_methods_lookup methods n m :
  m ≠ "emit" → m ≠ "commit" → m ≠ "rollback" →
  handle_methods methods n !! m =
  if bool_decide (m ∈ methods) then Some Native else None.
Proof.
  intros He Hc Hr. destruct n; simpl;
    rewrite ?lookup_insert_ne by congruence; apply database_lookup.
Qed.

Lemma handle_methods_emit methods n :
  handle_methods methods n !! "emit" = Some InterceptedEmit.
Proof.
  destruct n; simpl.
  - apply lookup_insert_eq.
  - rewrite !lookup_insert_ne by discriminate. apply lookup_insert_eq.
Qed.

Lemma handle_methods_commit methods n :
  handle_methods methods (S n) !! "commit" = Some (CommitOf n).
Proof.
  simpl. rewrite lookup_insert_ne by discriminate. apply lookup_insert_eq.
Qed.

Lemma handle_methods_rollback methods n :
  handle_methods methods (S n) !! "rollback" = Some (RollbackOf n).
Proof. simpl. apply lookup_insert_eq. Qed.

(** Installing the methods of activation [n] on the handle. *)
Lemma handle_methods_install methods n :
  <["rollback" := RollbackOf n]>
    (<["commit" := CommitOf n]> (handle_methods methods n)) =
  handle_methods methods (S n).
Proof.
  destruct n as [|k]; simpl; [reflexivity|].
  apply map_eq. intros i. rewrite !lookup_insert.
  repeat case_decide; congruence.
Qed.

(** What kind of method sits under a name of the handle. *)
Lemma handle_methods_cases methods n m x :
  handle_methods methods n !! m = Some x →
  (x = Native ∧ m ∈ methods ∧ m ≠ "emit") ∨
  (x = InterceptedEmit ∧ m = "emit") ∨
  (∃ k, n = S k ∧ x = CommitOf k ∧ m = "commit") ∨
  (∃ k, n = S k ∧ x = RollbackOf k ∧ m = "rollback").
Proof.
  destruct (decide (m = "emit")) as [->|He].
  { rewrite handle_methods_emit. intros [= <-]. auto. }
  destruct n as [|k].
  - simpl. rewrite lookup_insert_ne by congruence. rewrite database_lookup.
    case_bool_decide; [|discriminate]. intros [= <-]. auto.
  - destruct (decide (m = "rollback")) as [->|Hr].
    { rewrite handle_methods_rollback. intros [= <-]. right. right. right. eauto. }
    destruct (decide (m = "commit")) as [->|Hc].
    { rewrite handle_methods_commit. intros [= <-]. right. right. left. eauto. }
    rewrite handle_methods_lookup by assumption.
    case_bool_decide; [|discriminate]. intros [= <-]. auto.
Qed.

Lemma facade_methods_cases methods m x :
  facade_methods methods !! m = Some x →
  x = PrepareWrapper ∨ (x = Wrapped Connection m ∧ m ∈ methods).
Proof.
  unfold facade_methods, wrapObject.
  destruct (decide (m = "prepare")) as [->|Hp].
  { rewrite lookup_insert_eq. intros [= <-]. auto. }
  rewrite lookup_insert_ne by congruence.
  rewrite lookup_union_l by apply lookup_empty.
  rewrite map_lookup_imap, database_lookup.
  destruct (bool_decide (m ∈ methods)) eqn:Hm; simpl; [|discriminate].
  apply bool_decide_eq_true in Hm.
  destruct (bool_decide (m ∈ prohibitedMethods)); [discriminate|].
  intros [= <-]. auto.
Qed.


(** *** Arguments and outstanding calls *)

Lemma plain_inject ua : plain (inject <$> ua) = true.
Proof.
  unfold plain, last_fn. rewrite fmap_last.
  destruct (last ua) as [[]|]; reflexivity.
Qed.

Lemma hijack_hijacked a : plain a = true → hijacked (hijack a) = true.
Proof.
  unfold plain, hijacked, hijack, last_fn.
  destruct (last a) as [[| |f]|]; intros H; rewrite last_snoc; auto.
Qed.

Lemma plain_not_counted o m a :
  plain a = true →
  counted {| target := o; name := m; arguments := a |} = false ∧
  call_ok {| target := o; name := m; arguments := a |} = true ∧
  call_tid {| target := o; name := m; arguments := a |} = None.
Proof.
  unfold plain, counted, call_ok, call_tid. simpl.
  destruct (last_fn a) as [[]|]; simpl; auto; discriminate.
Qed.

Lemma hijacked_counted o m a :
  hijacked a = true →
  counted {| target := o; name := m; arguments := a |} = true ∧
  call_ok {| target := o; name := m; arguments := a |} = true ∧
  call_tid {| target := o; name := m; arguments := a |} = None.
Proof.
  unfold hijacked, counted, call_ok, call_tid. simpl.
  destruct (last_fn a) as [[]|]; simpl; auto; discriminate.
Qed.

Lemma count_locking_snoc l c :
  count_locking (l ++ [c]) =
  (count_locking l + (if counted c then 1 else 0))%nat.
Proof.
  unfold count_locking. rewrite filter_app, length_app. f_equal.
  rewrite filter_cons. destruct (counted c); reflexivity.
Qed.

Lemma count_locking_delete l i c :
  l !! i = Some c →
  (count_locking l =
   count_locking (delete i l) + (if counted c then 1 else 0))%nat.
Proof.
  intros H. rewrite delete_take_drop.
  rewrite <- (take_drop_middle l i c H) at 1.
  unfold count_locking. rewrite !filter_app, !length_app, filter_cons.
  destruct (counted c); simpl; lia.
Qed.

Lemma omap_delete {A B} (f : A → option B) (l : list A) (i : nat) x :
  l !! i = Some x →
  omap f l = omap f (take i l) ++ option_list (f x) ++ omap f (drop (S i) l) ∧
  omap f (delete i l) = omap f (take i l) ++ omap f (drop (S i) l).
Proof.
  intros H. split.
  - rewrite <- (take_drop_middle l i x H) at 1.
    rewrite omap_app. simpl. now destruct (f x).
  - now rewrite delete_take_drop, omap_app.
Qed.

(** Removing an entry that is not a commit or rollback leaves the
    pending ones; removing one that is leaves none, if there was at most
    one. *)
Lemma omap_delete_None {A B} (f : A → option B) (l : list A) (i : nat) x :
  l !! i = Some x → f x = None → omap f (delete i l) = omap f l.
Proof.
  intros H Hx. destruct (omap_delete f l i x H) as [-> ->].
  now rewrite Hx.
Qed.

Lemma omap_delete_Some {A B} (f : A → option B) (l : list A) (i : nat) x y
  (rest : list B) :
  l !! i = Some x → f x = Some y → (length (omap f l ++ rest) ≤ 1)%nat →
  omap f l = [y] ∧ omap f (delete i l) = [] ∧ rest = [].
Proof.
  intros H Hx. destruct (omap_delete f l i x H) as [-> ->].
  rewrite Hx. simpl.
  destruct (omap f (take i l)), (omap f (drop (S i) l)), rest; simpl;
    rewrite ?length_app; simpl; intros; try lia; auto.
Qed.


(** *** Disciplined callers

    What the invariant on transactions asks of the callers: [commit] and
    [rollback] are called on the handle only while no commit or rollback
    is under way.  Executions in which a BEGIN fails are left aside as
    well. *)
Definition allowed (s : State) (act : Action) : bool :=
  match act with
  | CallHandle m _ =>
      if bool_decide (m = "commit" ∨ m = "rollback") then quiet s else true
  | Complete i vals =>
      match inflight s !! i with
      | Some c =>
          match last_fn (arguments c) with
          | Some (BeginDone _) => negb (truthy (param 0 vals))
          | _ => true
          end
      | None => true
      end
  | _ => true
  end.

Fixpoint disciplined (r : nat → Value → TermCb → M unit) (s : State)
  (acts : list Action) : bool :=
  match acts with
  | [] => true
  | act :: rest => allowed s act && disciplined r (step r s act) rest
  end.

(** *** Each function keeps states well formed *)

Lemma pending_fields s s' :
  timers s' = timers s → inflight s' = inflight s → pending s' = pending s.
Proof. unfold pending. now intros -> ->. Qed.

Lemma tx_fields s s' :
  pending s' = pending s → activations s' = activations s →
  currentTransaction s' = currentTransaction s → tx_inv s → tx_inv s'.
Proof. unfold tx_inv. now intros -> -> ->. Qed.

Lemma quiet_pending s : quiet s = true ↔ pending s = [].
Proof. unfold quiet. apply bool_decide_eq_true. Qed.

Lemma is_finished_last pre a s :
  activations s = pre ++ [a] → is_finished (length pre) s = finished a.
Proof.
  intros H. unfold is_finished. rewrite H.
  rewrite lookup_app_r by lia. now rewrite Nat.sub_diag.
Qed.

Lemma all_finished_lookup s tid :
  all_finished (activations s) → (tid < length (activations s))%nat →
  is_finished tid s = true.
Proof.
  intros Hall Hlt. unfold is_finished.
  destruct (lookup_lt_is_Some_2 _ _ Hlt) as [a Ha]. rewrite Ha. simpl.
  eapply Forall_lookup_1 in Hall; [exact Hall | exact Ha].
Qed.

(** An activation that is the latest and not finished: the transaction
    is open. *)
Lemma tx_open s tid :
  tx_inv s → S tid = length (activations s) → is_finished tid s = false →
  currentTransaction s ≠ VNull ∧ one_open (activations s).
Proof.
  intros (_ & _ & H) Hlen Hf.
  destruct (currentTransaction s) eqn:Hc;
    try (split; [discriminate | exact H]).
  destruct H as [Hall _].
  rewrite all_finished_lookup in Hf; [discriminate | exact Hall | lia].
Qed.

Lemma one_open_not_finished s tid :
  one_open (activations s) → S tid = length (activations s) →
  is_finished tid s = false.
Proof.
  intros (pre & a & Hs & Ha & _) Hlen.
  rewrite Hs, length_app in Hlen. simpl in Hlen.
  replace tid with (length pre) by lia.
  now rewrite (is_finished_last pre a s Hs).
Qed.

Section Inv.

Variable methods : list string.
Variable strict : bool.
Variable r : nat → Value → TermCb → M unit.

Local Abbreviation J := (inv methods strict).

Lemma inv_same s s' :
  db s' = db s → own s' = own s →
  currentTransaction s' = currentTransaction s → queue s' = queue s →
  inflight s' = inflight s → _lock s' = _lock s →
  activations s' = activations s → timers s' = timers s →
  J s → J s'.
Proof.
  intros Hdb Hown Hcur Hq Hin Hlk Hact Htm [].
  constructor; rewrite ?Hdb, ?Hown, ?Hcur, ?Hq, ?Hin, ?Hlk, ?Hact; auto.
  intros Hs. apply (tx_fields s); auto. now apply pending_fields.
Qed.

Lemma inv_logged e s : J s → J (logged e s).
Proof. now apply inv_same. Qed.

Lemma inv_queue_set q s : Forall (item_ok methods) q → J s → J (set_queue q s).
Proof.
  intros Hq []. constructor; simpl; auto.
Qed.

Lemma inv_call cb vals s : J s → J (snd (call cb vals s)).
Proof.
  intros H. destruct cb; [exact (inv_logged (Called id vals) s H) | exact H].
Qed.

Lemma inv_call_term cb vals s : J s → J (snd (call_term cb vals s)).
Proof.
  intros H. destruct cb; simpl; [now apply inv_call..|exact H].
Qed.

(** Handing over a call that is neither counted nor a commit or
    rollback. *)
Lemma inv_outstanding_other o m a s :
  let c := {| target := o; name := m; arguments := a |} in
  counted c = false → call_ok c = true → call_tid c = None →
  J s → J (outstanding o m a s).
Proof.
  intros c Hc Hok Ht [].
  constructor; simpl; auto.
  - apply Forall_app. split; [assumption|]. now repeat constructor.
  - fold c. rewrite count_locking_snoc, Hc. rewrite Nat.add_0_r. assumption.
  - intros Hs. apply (tx_fields s); auto.
    unfold pending. simpl. rewrite omap_app. simpl. fold c. rewrite Ht.
    now rewrite app_nil_r.
Qed.

Lemma inv_outstanding_plain o m a s :
  plain a = true → J s → J (outstanding o m a s).
Proof.
  intros Ha. destruct (plain_not_counted o m a Ha) as (Hc & Hok & Ht).
  now apply inv_outstanding_other.
Qed.

Lemma inv_native_plain o m a s :
  plain a = true → J s → J (snd (native o m a s)).
Proof.
  intros Ha H. rewrite native_eq. simpl.
  now apply inv_outstanding_plain, inv_logged.
Qed.

(** Handing over a locking call, the counter already raised. *)
Lemma inv_native_counted o m a s :
  hijacked a = true → J s →
  J (snd (native o m a (set_lock (_lock s + 1) s))).
Proof.
  intros Ha []. destruct (hijacked_counted o m a Ha) as (Hc & Hok & Ht).
  rewrite native_eq. constructor; simpl; auto.
  - apply Forall_app. split; [assumption|]. now repeat constructor.
  - rewrite count_locking_snoc, Hc. lia.
  - intros Hs. apply (tx_fields s); auto.
    unfold pending. simpl. rewrite omap_app. simpl. rewrite Ht.
    now rewrite app_nil_r.
Qed.

(** [check] for the continuation of [beginTransaction]. *)
Lemma inv_check_begin tid s : J s → J (snd (check r (WaitBegin tid) s)).
Proof.
  intros H. rewrite check_unfold. case_bool_decide.
  - unfold continuation_without_err_branch. rewrite exec_eq. simpl.
    apply inv_outstanding_other; try reflexivity. now apply inv_logged.
  - unfold retry_later. simpl. destruct H. constructor; simpl; auto.
    intros Hs. apply (tx_fields s); auto.
    unfold pending. simpl. rewrite omap_app. simpl. now rewrite app_nil_r.
Qed.

(** [check] for a commit or rollback of the latest activation, none
    being under way. *)
Lemma inv_check_terminal w tid s :
  waiter_tid w = Some tid →
  (strict = true →
   quiet s = true ∧ S tid = length (activations s) ∧
   is_finished tid s = false) →
  J s → J (snd (check r w s)).
Proof.
  intros Hw Hpre H. rewrite check_unfold.
  assert (Htx : strict = true → ∀ s',
            activations s' = activations s →
            currentTransaction s' = currentTransaction s →
            pending s' = [tid] → tx_inv s').
  { intros Hs s' Ha Hc Hp. destruct (Hpre Hs) as (Hq & Hlen & Hf).
    destruct (tx_open s tid (inv_tx _ _ _ H Hs) Hlen Hf) as [Hn Ho].
    unfold tx_inv. rewrite Hp, Ha, Hc. split; [now repeat constructor|].
    split; [simpl; lia|]. now destruct (currentTransaction s). }
  assert (Hq : strict = true → pending s = []).
  { intros Hs. now apply quiet_pending, Hpre. }
  case_bool_decide.
  - assert (Hexec : ∀ stmt f,
              call_tid {| target := Connection; name := "exec";
                          arguments := [AStr stmt; AFn f] |} = Some tid →
              counted {| target := Connection; name := "exec";
                         arguments := [AStr stmt; AFn f] |} = false →
              J (snd (_exec stmt f s))).
    { intros stmt f Ht Hc. rewrite exec_eq. destruct H.
      constructor; simpl; auto.
      - apply Forall_app. split; [assumption|]. repeat constructor.
        unfold call_ok, counted in *. simpl in *. now destruct f.
      - rewrite count_locking_snoc, Hc, Nat.add_0_r. assumption.
      - intros Hs. apply (Htx Hs); try reflexivity.
        specialize (Hq Hs). unfold pending in *. simpl.
        rewrite omap_app. apply app_eq_nil in Hq as [-> ->]. simpl.
        now rewrite Ht. }
    destruct w as [|t cb|t cb]; [discriminate|..]; injection Hw as ->;
      apply Hexec; reflexivity.
  - unfold retry_later. simpl. destruct H. constructor; simpl; auto.
    intros Hs. apply (Htx Hs); try reflexivity.
    specialize (Hq Hs). unfold pending in *. simpl.
    rewrite omap_app. apply app_eq_nil in Hq as [-> ->]. simpl.
    now rewrite Hw.
Qed.

Lemma inv_commit tid cb s :
  S tid = length (activations s) → (strict = true → quiet s = true) →
  J s → J (snd (commit r tid cb s)).
Proof.
  intros Hlen Hq H. unfold commit, _wait.
  destruct (is_finished tid s) eqn:Hf; [now apply inv_call|].
  apply (inv_check_terminal _ tid); auto.
Qed.

Lemma inv_rollback tid cb s :
  S tid = length (activations s) → (strict = true → quiet s = true) →
  J s → J (snd (rollback r tid cb s)).
Proof.
  intros Hlen Hq H. unfold rollback, _wait.
  destruct (is_finished tid s) eqn:Hf; [now apply inv_call_term|].
  apply (inv_check_terminal _ tid); auto.
Qed.

Lemma inv_handle_rollback f s :
  plain_fn f = true → (strict = true → quiet s = true) →
  J s → J (snd (handle_rollback r f s)).
Proof.
  intros Hf Hq H. unfold handle_rollback.
  destruct (db s !! "rollback") as [x|] eqn:E; [|exact H].
  rewrite (inv_db _ _ _ H) in E.
  destruct x; try exact H.
  - apply inv_native_plain; [|exact H]. unfold plain, last_fn. simpl. exact Hf.
  - apply handle_methods_cases in E
      as [(?&_)|[(?&_)|[(k&_&?&_)|(k&Hk&Hx&_)]]]; try discriminate.
    injection Hx as <-. apply inv_rollback; auto.
Qed.

Lemma inv_intercepted_emit a s :
  J s → J (snd (intercepted_emit r a s)).
Proof.
  intros H. unfold intercepted_emit. munfold. simpl.
  destruct (is_error_event a); simpl.
  - destruct (listening s); simpl; [|exact H].
    rewrite error_listener_throws. simpl. now apply inv_logged.
  - now apply inv_logged.
Qed.

(** A call on the connection object or on a statement with plain
    arguments; a commit or rollback only when none is under way. *)
Lemma inv_apply_raw o m a s :
  plain a = true →
  (strict = true → quiet s = true ∨ (m ≠ "commit" ∧ m ≠ "rollback")) →
  J s → J (snd (apply_raw r o m a s)).
Proof.
  intros Ha Hq H. unfold apply_raw. destruct o; [|now apply inv_native_plain|exact H].
  destruct (db s !! m) as [x|] eqn:E; [|exact H].
  rewrite (inv_db _ _ _ H) in E.
  apply handle_methods_cases in E
    as [(->&_)|[(->&_)|[(k&Hk&->&->)|(k&Hk&->&->)]]].
  - now apply inv_native_plain.
  - now apply inv_intercepted_emit.
  - apply inv_commit; auto. intros Hs. destruct (Hq Hs) as [|[]]; auto; congruence.
  - apply inv_rollback; auto. intros Hs. destruct (Hq Hs) as [|[]]; auto; congruence.
Qed.

Lemma locking_not_special m :
  locking m = true → m ≠ "emit" ∧ m ≠ "commit" ∧ m ≠ "rollback".
Proof.
  intros H. repeat split; intros ->; vm_compute in H; discriminate.
Qed.

Lemma closed_quiet s :
  J s → currentTransaction s = VNull → strict = true → quiet s = true.
Proof.
  intros H Hc Hs. apply quiet_pending.
  destruct (inv_tx _ _ _ H Hs) as (_ & _ & Ht). rewrite Hc in Ht. apply Ht.
Qed.

Lemma isNull_VNull v : isNull v = true → v = VNull.
Proof. now destruct v. Qed.

(** A locking method of a wrapper's source is native. *)
Lemma source_native o m s :
  J s → locking m = true → source_ok methods o m →
  ∀ a z, apply_raw r o m a (set_lock z s) = native o m a (set_lock z s).
Proof.
  intros H Hm Ho a z. unfold apply_raw. destruct o; [|reflexivity|contradiction].
  simpl in *. rewrite (inv_db _ _ _ H).
  destruct (locking_not_special m Hm) as (He & Hc & Hr).
  rewrite handle_methods_lookup by assumption.
  now rewrite bool_decide_eq_true_2.
Qed.

Lemma inv_wrapDbMethod o m a s :
  plain a = true → source_ok methods o m →
  J s → J (snd (wrapDbMethod r o m a s)).
Proof.
  intros Ha Ho H. unfold wrapDbMethod. munfold. simpl.
  destruct (isNull (currentTransaction s)) eqn:Hc.
  - apply isNull_VNull in Hc. destruct (locking m) eqn:Hm; simpl.
    + rewrite (source_native o m s H Hm Ho).
      apply inv_native_counted; [now apply hijack_hijacked | exact H].
    + apply inv_apply_raw; auto. intros Hs. left. now apply closed_quiet.
  - apply inv_queue_set; [|exact H].
    apply Forall_app. split; [apply (inv_queue _ _ _ H)|].
    repeat constructor. unfold item_ok. simpl.
    destruct o; [| |contradiction]; destruct (locking m) eqn:Hm; simpl;
      auto using hijack_hijacked.
Qed.

Lemma inv_beginTransaction a s :
  plain a = true → J s → J (snd (beginTransaction r a s)).
Proof.
  intros Ha H. unfold beginTransaction, _wait. munfold. simpl.
  destruct (isNull (currentTransaction s)) eqn:Hc; simpl.
  - apply isNull_VNull in Hc. apply inv_check_begin.
    destruct H. constructor; simpl; auto.
    + rewrite inv_db0, length_app. simpl. rewrite Nat.add_1_r.
      apply handle_methods_install.
    + intros Hs. destruct (inv_tx0 Hs) as (_ & _ & Ht).
      rewrite Hc in Ht. destruct Ht as [Hall Hp].
      unfold tx_inv, pending in *. simpl. rewrite Hp.
      split; [constructor|]. split; [simpl; lia|].
      eexists _, _. split; [reflexivity|]. split; [reflexivity | exact Hall].
  - apply inv_queue_set; [|exact H].
    apply Forall_app. split; [apply (inv_queue _ _ _ H)|].
    repeat constructor. exact Ha.
Qed.

Lemma inv_apply_facade m a s :
  plain a = true → J s → J (snd (apply_facade r m a s)).
Proof.
  intros Ha H. unfold apply_facade.
  destruct (own s !! m) as [x|] eqn:E.
  - rewrite (inv_own _ _ _ H) in E.
    apply facade_methods_cases in E as [->|[-> Hm]].
    + now apply inv_native_plain.
    + now apply inv_wrapDbMethod.
  - case_bool_decide; [now apply inv_beginTransaction | exact H].
Qed.

(** Calls on the connection object and on statements leave
    [currentTransaction] alone. *)
Lemma apply_raw_current o m a s :
  currentTransaction (snd (apply_raw r o m a s)) = currentTransaction s.
Proof.
  now apply (stable_apply_raw (λ s', currentTransaction s' = currentTransaction s)).
Qed.

Lemma inv_apply_item_lock i s :
  item_ok methods i → is_lock (type i) = true → J s →
  J (snd (apply_item r i (set_lock (_lock s + 1) s))) ∧
  currentTransaction (snd (apply_item r i (set_lock (_lock s + 1) s))) =
    currentTransaction s.
Proof.
  unfold item_ok, apply_item. intros Hi Hl H.
  destruct (object i) eqn:Ho; rewrite ?Hl in *.
  - destruct Hi as (Hm & Hs & Ha).
    rewrite (source_native Connection _ s H Hm Hs).
    split; [now apply inv_native_counted | reflexivity].
  - destruct Hi as (Hm & Hs & Ha).
    split; [now apply inv_native_counted | reflexivity].
  - destruct Hi as [Ht _]. rewrite Ht in Hl. discriminate.
Qed.

Lemma inv_apply_item_other i s :
  item_ok methods i → is_lock (type i) = false →
  (strict = true → currentTransaction s = VNull) → J s →
  J (snd (apply_item r i s)) ∧
  (is_transaction (type i) = false →
   currentTransaction (snd (apply_item r i s)) = currentTransaction s).
Proof.
  unfold item_ok, apply_item. intros Hi Hl Hc H.
  destruct (object i) eqn:Ho; rewrite ?Hl in *.
  - split; [|intros _; apply apply_raw_current].
    apply inv_apply_raw; auto. intros Hs. left. apply closed_quiet; auto.
  - split; [|intros _; apply apply_raw_current].
    apply inv_apply_raw; auto. intros Hs. left. apply closed_quiet; auto.
  - destruct Hi as [Ht Ha]. split; [now apply inv_apply_facade|].
    rewrite Ht. discriminate.
Qed.

Lemma inv_runQueue_loop n : ∀ s,
  (strict = true → currentTransaction s = VNull) → J s →
  J (snd (runQueue_loop r n s)).
Proof.
  induction n as [|n IH]; intros s Hc H; simpl.
  - destruct (queue s); exact H.
  - destruct (queue s) as [|i rest] eqn:Hq; [exact H|].
    pose proof (inv_queue _ _ _ H) as Hitems. rewrite Hq in Hitems.
    inversion Hitems as [|? ? Hi Hrest]; subst.
    assert (H1 : J (set_queue rest s)) by now apply inv_queue_set.
    munfold. simpl. destruct (is_lock (type i)) eqn:Hl; simpl.
    + destruct (inv_apply_item_lock i (set_queue rest s) Hi Hl H1) as [H2 Hc2].
      simpl in H2, Hc2.
      destruct (apply_item r i _) as [[u|x] s2]; simpl in *; [|exact H2].
      destruct (is_transaction (type i)); [exact H2|].
      apply IH; [|exact H2]. intros Hs. rewrite Hc2. now apply Hc.
    + destruct (inv_apply_item_other i (set_queue rest s) Hi Hl Hc H1) as [H2 Hc2].
      destruct (apply_item r i _) as [[u|x] s2]; simpl in *; [|exact H2].
      destruct (is_transaction (type i)); [exact H2|].
      apply IH; [|exact H2]. intros Hs. rewrite Hc2 by reflexivity. now apply Hc.
Qed.

Lemma all_finished_alter tid l :
  (∀ i a, l !! i = Some a → i ≠ tid → finished a = true) →
  all_finished (alter finish_activation tid l).
Proof.
  intros H. apply Forall_lookup. intros i a. rewrite list_lookup_alter.
  case_decide; [subst|now eauto].
  destruct (l !! i); simpl; [intros [= <-]; reflexivity | discriminate].
Qed.

(** Closing the latest activation when no commit or rollback is
    pending. *)
Lemma inv_closed_state tid s :
  (strict = true → quiet s = true ∧ S tid = length (activations s)) →
  J s → J (closed_state tid s).
Proof.
  intros Hpre H. destruct H. constructor; simpl; auto.
  - now rewrite length_alter.
  - intros Hs. destruct (Hpre Hs) as [Hq Hlen]. apply quiet_pending in Hq.
    destruct (inv_tx0 Hs) as (_ & _ & Ht).
    unfold tx_inv, pending in *. simpl. rewrite Hq.
    split; [constructor|]. split; [simpl; lia|]. split; [|reflexivity].
    apply all_finished_alter. intros i a Hi Hne.
    destruct (currentTransaction s).
    2: { destruct Ht as [Hall _]. eapply Forall_lookup_1 in Hall; eauto. }
    all: destruct Ht as (pre & x & Hact & _ & Hall);
      rewrite Hact in Hi, Hlen; rewrite length_app in Hlen; simpl in Hlen;
      apply lookup_app_Some in Hi as [Hi|[Hge Hi]];
      [ eapply Forall_lookup_1 in Hall; eauto
      | apply list_lookup_singleton_Some in Hi as [Hi _]; lia ].
Qed.

Lemma inv_finishTransaction tid e cb s :
  (strict = true → quiet s = true ∧ S tid = length (activations s)) →
  J s → J (snd (finishTransaction r tid e cb s)).
Proof.
  intros Hpre H. unfold finishTransaction, _runQueue.
  unfold bind at 1 2. simpl. fold (closed_state tid s).
  pose proof (inv_closed_state tid s Hpre H) as H1.
  pose proof (inv_runQueue_loop (length (queue (closed_state tid s)))
                (closed_state tid s) (λ _, eq_refl) H1) as H2.
  unfold bind. simpl in *.
  destruct (runQueue_loop r _ _) as [[u|x] s2]; simpl in *; [|exact H2].
  now apply inv_call_term.
Qed.

Lemma inv_invoke_plain f vals s :
  plain_fn f = true → J s → J (snd (invoke r f vals s)).
Proof.
  intros Hf H. destruct f; try discriminate; simpl.
  - now apply inv_logged.
  - unfold when. destruct (truthy _); [|exact H].
    apply inv_apply_raw; auto; try (intros _; right; split; discriminate).
  - now apply inv_call.
  - exact H.
Qed.

(** Taking a completed call off the outstanding ones. *)
Lemma inv_removed_other i c s :
  inflight s !! i = Some c → counted c = false → call_tid c = None →
  J s → J (set_inflight (delete i (inflight s)) s).
Proof.
  intros Hi Hc Ht []. constructor; simpl; auto.
  - now apply Forall_delete.
  - rewrite (count_locking_delete _ i c Hi), Hc, Nat.add_0_r in inv_lock0.
    exact inv_lock0.
  - intros Hs. apply (tx_fields s); auto.
    unfold pending. simpl. now rewrite (omap_delete_None _ _ i c Hi Ht).
Qed.

Lemma inv_removed_counted i c s :
  inflight s !! i = Some c → counted c = true →
  J s →
  ¬ (_lock s < 1) ∧
  J (set_lock (_lock s - 1) (set_inflight (delete i (inflight s)) s)).
Proof.
  intros Hi Hc []. rewrite (count_locking_delete _ i c Hi), Hc in inv_lock0.
  assert (Ht : call_tid c = None).
  { unfold counted, call_tid in *. destruct (last_fn (arguments c)) as [[]|];
      auto; discriminate. }
  split; [lia|]. constructor; simpl; auto.
  - now apply Forall_delete.
  - lia.
  - intros Hs. apply (tx_fields s); auto.
    unfold pending. simpl. now rewrite (omap_delete_None _ _ i c Hi Ht).
Qed.

Lemma inv_removed_terminal i c tid s :
  inflight s !! i = Some c → call_tid c = Some tid →
  J s →
  J (set_inflight (delete i (inflight s)) s) ∧
  (strict = true →
   quiet (set_inflight (delete i (inflight s)) s) = true ∧
   S tid = length (activations s)).
Proof.
  intros Hi Ht H.
  assert (Hc : counted c = false).
  { unfold counted, call_tid in *. destruct (last_fn (arguments c)) as [[]|];
      auto; discriminate. }
  assert (Htx : strict = true →
            pending (set_inflight (delete i (inflight s)) s) = [] ∧
            pending s = [tid] ∧ S tid = length (activations s)).
  { intros Hs. destruct (inv_tx _ _ _ H Hs) as (Hall & Hlen & _).
    unfold pending in *. simpl.
    rewrite length_app, Nat.add_comm, <- length_app in Hlen.
    destruct (omap_delete_Some call_tid _ i c tid _ Hi Ht Hlen)
      as (Hp & -> & Ht0).
    rewrite Ht0, Hp in *. simpl. split; [reflexivity|]. split; [reflexivity|].
    now inversion Hall. }
  split.
  - destruct H. constructor; simpl; auto.
    + now apply Forall_delete.
    + rewrite (count_locking_delete _ i c Hi), Hc, Nat.add_0_r in inv_lock0.
      exact inv_lock0.
    + intros Hs. destruct (Htx Hs) as (Hp' & Hp & Hlen).
      destruct (inv_tx0 Hs) as (_ & _ & Hcase).
      unfold tx_inv. simpl currentTransaction. simpl activations.
      rewrite Hp'. split; [constructor|]. split; [simpl; lia|].
      destruct (currentTransaction s); auto.
      destruct Hcase as [_ Hnil]. rewrite Hp in Hnil. discriminate.
  - intros Hs. destruct (Htx Hs) as (Hp' & _ & Hlen).
    split; [now apply quiet_pending | exact Hlen].
Qed.

Lemma inv_complete i vals s : J s → J (snd (complete r i vals s)).
Proof.
  intros H. unfold complete.
  destruct (inflight s !! i) as [c|] eqn:Hi; [|exact H].
  unfold bind, modify. simpl.
  pose proof (Forall_lookup_1 _ _ _ _ (inv_inflight _ _ _ H) Hi) as Hok.
  simpl in Hok. unfold call_ok, last_fn in Hok.
  destruct (last (arguments c)) as [[v|t|f]|] eqn:Hlast;
    try (apply (inv_removed_other i c); auto;
         unfold counted, call_tid, last_fn; now rewrite Hlast).
  destruct (plain_fn f) eqn:Hp.
  { apply inv_invoke_plain; [exact Hp|].
    apply (inv_removed_other i c); auto;
      unfold counted, call_tid, last_fn; rewrite Hlast;
      destruct f; auto; discriminate. }
  destruct f; try discriminate Hp; simpl.
  - (* newCallback *)
    destruct (inv_removed_counted i c s Hi) as [Hlk H1]; auto.
    { unfold counted, last_fn. now rewrite Hlast. }
    rewrite bool_decide_eq_false_2 by exact Hlk.
    unfold bind, modify. simpl. now apply inv_invoke_plain.
  - (* BEGIN completed *)
    unfold bind, gets. simpl.
    assert (H1 : J (set_inflight (delete i (inflight s)) s)).
    { apply (inv_removed_other i c); auto;
        unfold counted, call_tid, last_fn; now rewrite Hlast. }
    destruct (truthy _); now apply inv_call.
  - (* COMMIT completed *)
    destruct (inv_removed_terminal i c tid s Hi) as [H1 Hq]; auto.
    { unfold call_tid, last_fn. now rewrite Hlast. }
    destruct (truthy _).
    + apply inv_handle_rollback; auto. intros Hs. now apply Hq.
    + now apply inv_finishTransaction.
  - (* ROLLBACK completed *)
    destruct (inv_removed_terminal i c tid s Hi) as [H1 Hq]; auto.
    { unfold call_tid, last_fn. now rewrite Hlast. }
    now apply inv_finishTransaction.
Qed.

Lemma inv_tick i s : J s → J (snd (tick r i s)).
Proof.
  intros H. unfold tick.
  destruct (timers s !! i) as [w|] eqn:Hi; [|exact H].
  unfold bind, modify. simpl.
  destruct (waiter_tid w) as [tid|] eqn:Hw.
  - assert (Htx : strict = true →
              pending (set_timers (delete i (timers s)) s) = [] ∧
              pending s = [tid] ∧ S tid = length (activations s)).
    { intros Hs. destruct (inv_tx _ _ _ H Hs) as (Hall & Hlen & _).
      unfold pending in *. simpl.
      destruct (omap_delete_Some waiter_tid _ i w tid _ Hi Hw Hlen)
        as (Hp & -> & Ht0).
      rewrite Ht0, Hp in *. simpl. split; [reflexivity|]. split; [reflexivity|].
      now inversion Hall. }
    assert (H1 : J (set_timers (delete i (timers s)) s)).
    { destruct H. constructor; simpl; auto.
      intros Hs. destruct (Htx Hs) as (Hp' & Hp & Hlen).
      destruct (inv_tx0 Hs) as (_ & _ & Hcase).
      unfold tx_inv. simpl currentTransaction. simpl activations.
      rewrite Hp'. split; [constructor|]. split; [simpl; lia|].
      destruct (currentTransaction s); auto.
      destruct Hcase as [_ Hnil]. rewrite Hp in Hnil. discriminate. }
    apply (inv_check_terminal w tid); auto.
    intros Hs. destruct (Htx Hs) as (Hp' & Hp & Hlen).
    split; [now apply quiet_pending|]. split; [exact Hlen|].
    destruct (inv_tx _ _ _ H Hs) as (_ & _ & Hcase).
    apply (one_open_not_finished s); [|exact Hlen].
    destruct (currentTransaction s); auto.
    destruct Hcase as [_ Hnil]. rewrite Hp in Hnil. discriminate.
  - destruct w as [tid| |]; try discriminate.
    apply inv_check_begin. destruct H. constructor; simpl; auto.
    intros Hs. apply (tx_fields s); auto.
    unfold pending. simpl. now rewrite (omap_delete_None _ _ i _ Hi Hw).
Qed.

Lemma inv_handler act s :
  (strict = true → allowed s act = true) →
  J s → J (snd (handler r act s)).
Proof.
  intros Hal H. destruct act; simpl.
  - case_bool_decide; [exact H|]. apply inv_apply_facade; auto using plain_inject.
  - apply inv_apply_raw; auto using plain_inject.
    intros Hs. specialize (Hal Hs). simpl in Hal.
    case_bool_decide as Hm; [now left|]. right. split; intros ->; apply Hm; auto.
  - case_bool_decide; [exact H|].
    apply inv_wrapDbMethod; auto using plain_inject. exact Logic.I.
  - revert H. now apply inv_same.
  - now apply inv_complete.
  - now apply inv_tick.
  - apply inv_apply_raw; auto; try (intros _; right; split; discriminate).
Qed.

Lemma inv_step act s :
  (strict = true → allowed s act = true) → J s → J (step r s act).
Proof.
  intros Hal H. unfold step. pose proof (inv_handler act s Hal H) as H'.
  destruct (handler r act s) as [[u|x] s']; simpl in *; [exact H'|].
  now apply inv_logged.
Qed.

Lemma inv_run acts : ∀ s,
  (strict = true → disciplined r s acts = true) → J s → J (run r acts s).
Proof.
  induction acts as [|act acts IH]; intros s Hd H; simpl; [exact H|].
  apply IH.
  - intros Hs. specialize (Hd Hs). simpl in Hd.
    now apply andb_true_iff in Hd as [_ Hd].
  - apply inv_step; [|exact H].
    intros Hs. specialize (Hd Hs). simpl in Hd.
    now apply andb_true_iff in Hd as [Hd _].
Qed.

Lemma inv_initial : J (TransactionDatabase methods).
Proof.
  constructor; simpl; auto.
  intros _. unfold tx_inv, pending. simpl.
  split; [constructor|]. split; [lia|]. split; constructor.
Qed.

End Inv.


(** ** The counter counts the outstanding locking calls *)

Lemma hijack_last a :
  ∃ f, last_fn (hijack a) = Some (NewCallback f) ∧
       f = default ForwardError (last_fn a).
Proof.
  unfold hijack, last_fn.
  destruct (last a) as [[| |g]|]; rewrite last_snoc; eauto.
Qed.

(** C8. In every execution [_lock] equals the number of calls handed to
    the connection whose trailing argument is a [newCallback] and whose
    completion is outstanding: queued items do not count.  In such a
    state, the wrapper of a locking method either raises the counter
    and hands the call over at once (the trace entry of the dispatch
    carries the raised counter) or, while a transaction is registered,
    only appends a locking item; the trailing argument of the call is
    [newCallback] around the caller's trailing function, or around the
    forwarder to the connection's 'error' event when there is none;
    when the connection completes such a call, the counter is at least
    one, goes down by one, and then the original function runs; a
    locking item at the head of the queue is released with the counter
    raised first. *)
Theorem lock_counts_outstanding_calls r methods acts :
  let s := run r acts (TransactionDatabase methods) in
  _lock s = Z.of_nat (count_locking (inflight s)) ∧
  (∀ o m a, locking m = true → source_ok methods o m →
     wrapDbMethod r o m a s =
     (inl tt,
      if isNull (currentTransaction s)
      then outstanding o m (hijack a)
             (logged (Dispatch o m (hijack a)) (set_lock (_lock s + 1) s))
      else set_queue (queue s ++ [{| type := Lock; object := o; method := m;
                                     args := hijack a |}]) s)) ∧
  (∀ a, ∃ f, last_fn (hijack a) = Some (NewCallback f) ∧
             f = default ForwardError (last_fn a)) ∧
  (∀ i c f vals, inflight s !! i = Some c →
     last_fn (arguments c) = Some (NewCallback f) →
     (1 ≤ _lock s)%Z ∧
     complete r i vals s =
     invoke r f vals
       (set_lock (_lock s - 1) (set_inflight (delete i (inflight s)) s))) ∧
  (∀ id vals s', invoke r (UserF id) vals s' =
                 (inl tt, logged (Called id vals) s')) ∧
  (∀ vals s', invoke r ForwardError vals s' =
     if truthy (param 0 vals)
     then apply_raw r Connection "emit" [AStr "error"; AVal (param 0 vals)] s'
     else (inl tt, s')) ∧
  (∀ i rest n, queue s = i :: rest → is_lock (type i) = true →
     runQueue_loop r (S n) s = runQueue_loop r n (release (set_queue rest s) i)).
Proof.
  intros s.
  assert (H : inv methods false s).
  { apply inv_run; [discriminate | apply inv_initial]. }
  split; [apply (inv_lock _ _ _ H)|].
  split.
  { intros o m a Hm Ho. unfold wrapDbMethod. munfold. simpl. rewrite Hm.
    destruct (isNull (currentTransaction s)); simpl; [|reflexivity].
    now rewrite (source_native methods false r o m s H Hm Ho). }
  split; [apply hijack_last|].
  split.
  { intros i c f vals Hi Hf.
    assert (Hc : counted c = true) by (unfold counted; now rewrite Hf).
    destruct (inv_removed_counted methods false i c s Hi Hc H) as [Hlk _].
    split; [lia|]. unfold complete. rewrite Hi. unfold bind, modify. simpl.
    unfold last_fn in Hf. destruct (last (arguments c)) as [[| |g]|];
      try discriminate. injection Hf as ->. simpl.
    now rewrite bool_decide_eq_false_2. }
  split; [reflexivity|].
  split; [intros vals s'; simpl; unfold when; now destruct (truthy _)|].
  intros i rest n Hq Hl. apply runQueue_loop_native; [exact Hq|].
  pose proof (inv_queue _ _ _ H) as Hitems. rewrite Hq in Hitems.
  inversion Hitems as [|? ? Hi _]; subst.
  unfold item_ok, native_item in *.
  destruct (object i) eqn:Ho; rewrite ?Hl in Hi.
  - destruct Hi as (Hm & Hs & _). split; [now destruct (type i)|].
    simpl in Hs. rewrite (inv_db _ _ _ H).
    destruct (locking_not_special _ Hm) as (He & Hc & Hr).
    rewrite handle_methods_lookup by assumption.
    now rewrite bool_decide_eq_true_2.
  - split; [now destruct (type i) | exact Logic.I].
  - destruct Hi as [Ht _]. rewrite Ht in Hl. discriminate.
Qed.

(** ** The transaction handle *)

(** C9, as the code has it.  In every execution the facade's
    [currentTransaction] is [null] or the connection object itself, and
    that object's methods other than [commit], [rollback] and [emit]
    are the connection's own throughout; [emit] is the interceptor the
    constructor installed.  A native method called through the handle
    is handed to the connection as it is: the state changes by the
    outstanding call and its trace entry only, so [queue], [_lock] and
    [currentTransaction] are what they were; when the connection
    completes such a call, the caller's trailing function, if any, is
    called and the counter is not touched.  Every successful BEGIN
    passes that same object to the caller. *)
Theorem handle_is_the_connection r methods acts :
  let s := run r acts (TransactionDatabase methods) in
  (currentTransaction s = VNull ∨ currentTransaction s = VRef Connection) ∧
  (∀ m, m ≠ "commit" → m ≠ "rollback" → m ≠ "emit" →
     db s !! m = if bool_decide (m ∈ methods) then Some Native else None) ∧
  db s !! "emit" = Some InterceptedEmit ∧
  (∀ m a, db s !! m = Some Native →
     step r s (CallHandle m a) =
     outstanding Connection m (inject <$> a)
       (logged (Dispatch Connection m (inject <$> a)) s)) ∧
  (∀ i c ua vals, inflight s !! i = Some c → arguments c = inject <$> ua →
     complete r i vals s =
     (inl tt,
      let s' := set_inflight (delete i (inflight s)) s in
      match last ua with
      | Some (UFn id) => logged (Called id vals) s'
      | _ => s'
      end)) ∧
  (∀ tid vals, truthy (param 0 vals) = false →
     invoke r (BeginDone tid) vals s =
     call (callback_of tid s) [VNull; VRef Connection] s) ∧
  VRef Connection ≠ VRef Facade.
Proof.
  intros s.
  assert (H : inv methods false s).
  { apply inv_run; [discriminate | apply inv_initial]. }
  split; [apply (inv_current _ _ _ H)|].
  split.
  { intros m Hc Hr He. rewrite (inv_db _ _ _ H).
    now apply handle_methods_lookup. }
  split.
  { rewrite (inv_db _ _ _ H). apply handle_methods_emit. }
  split.
  { intros m a Hm. unfold step, handler, apply_raw. now rewrite Hm. }
  split.
  { intros i c ua vals Hi Hc. unfold complete. rewrite Hi, Hc, fmap_last.
    unfold bind, modify. simpl. now destruct (last ua) as [[]|]. }
  split; [|discriminate].
  intros tid vals He. simpl. munfold. now rewrite He.
Qed.

(** C9 as stated fails on [emit]: it is neither [commit] nor [rollback],
    yet on the handle it is not the connection's own method. *)
Lemma handle_emit_is_intercepted :
  "emit" ∈ sqlite3_methods ∧ "emit" ≠ "commit" ∧ "emit" ≠ "rollback" ∧
  db fresh !! "emit" = Some InterceptedEmit ∧
  db fresh !! "emit" ≠ Some Native.
Proof.
  split; [apply (bool_decide_eq_true_1 _); vm_compute; reflexivity|].
  split; [discriminate|]. split; [discriminate|].
  split; [vm_compute; reflexivity | vm_compute; discriminate].
Qed.

(** ** A finished transaction refuses commit and rollback *)

(** C7, as the code has it.  Every transaction handle is the connection
    object, and [beginTransaction] puts the [commit] and [rollback] of
    its own activation on it.  So in every execution the handle carries
    the closures of the transaction begun last.  When the [finished]
    flag of that transaction is set, calling either of them only calls
    the given callback, at once, with the "already finished" error: the
    resulting state is the state before with that one call added to the
    trace; in particular nothing is issued and [_lock], [queue] and
    [currentTransaction] are untouched.  When it is not set, the call
    goes through the wait gate for that transaction, whichever
    transaction the caller got the handle from. *)
Theorem finished_transaction_refuses r methods acts tid id
  (Hlast : S tid = length (activations (run r acts (TransactionDatabase methods)))) :
  let s := run r acts (TransactionDatabase methods) in
  db s !! "commit" = Some (CommitOf tid) ∧
  db s !! "rollback" = Some (RollbackOf tid) ∧
  (is_finished tid s = true →
   step r s (CallHandle "commit" [UFn id]) =
     logged (Called id [commit_refused]) s ∧
   step r s (CallHandle "rollback" [UFn id]) =
     logged (Called id [rollback_refused]) s ∧
   commit r tid (Fn id) s = (inl tt, logged (Called id [commit_refused]) s) ∧
   rollback r tid (ByCaller (Fn id)) s =
     (inl tt, logged (Called id [rollback_refused]) s)) ∧
  (is_finished tid s = false →
   step r s (CallHandle "commit" [UFn id]) =
     snd (_wait r (WaitCommit tid (Fn id)) s) ∧
   step r s (CallHandle "rollback" [UFn id]) =
     snd (_wait r (WaitRollback tid (ByCaller (Fn id))) s)).
Proof.
  intros s. fold s in Hlast.
  assert (H : inv methods false s).
  { apply inv_run; [discriminate | apply inv_initial]. }
  assert (Hcommit : db s !! "commit" = Some (CommitOf tid)).
  { rewrite (inv_db _ _ _ H), <- Hlast. apply handle_methods_commit. }
  assert (Hrollback : db s !! "rollback" = Some (RollbackOf tid)).
  { rewrite (inv_db _ _ _ H), <- Hlast. apply handle_methods_rollback. }
  split; [exact Hcommit|]. split; [exact Hrollback|]. split.
  - intros Hfinished.
    unfold step, handler, apply_raw, commit, rollback. simpl.
    rewrite Hcommit, Hrollback, Hfinished. simpl. auto.
  - intros Hopen.
    unfold step, handler, apply_raw, commit, rollback. simpl.
    rewrite Hcommit, Hrollback, Hopen. unfold _wait.
    rewrite !check_unfold. split; case_bool_decide; now simpl.
Qed.

(** C7 as stated fails: a second transaction was requested while the
    first was active, and the drain at the first one's COMMIT has
    started it.  The terminal flag of the first transaction is set, yet
    [commit] called on its handle is not refused: it issues COMMIT, for
    the second transaction. *)
Lemma finished_handle_commits_next_transaction :
  let s := run program [CallFacade "beginTransaction" [UFn 0];
                        Complete 0 [VNull];
                        CallFacade "beginTransaction" [UFn 1];
                        CallHandle "commit" [UFn 2];
                        Complete 0 [VNull]] fresh in
  is_finished 0 s = true ∧
  event <$> head (log s) = Some (Called 2 [VNull]) ∧
  step program s (CallHandle "commit" [UFn 3]) =
    outstanding Connection "exec" [AStr "COMMIT;"; AFn (CommitDone 1 (Fn 3))]
      (logged (Issue "COMMIT;") s) ∧
  step program s (CallHandle "commit" [UFn 3]) ≠
    logged (Called 3 [commit_refused]) s.
Proof.
  vm_compute. repeat split; try reflexivity. discriminate.
Qed.

(** ** One transaction at a time *)

Definition unfinished (tid : nat) (s : State) : Prop :=
  ∃ a, activations s !! tid = Some a ∧ finished a = false.

(** Follows the wording of the specification: a transaction is "between
    a successfully issued BEGIN and a completed COMMIT/ROLLBACK".  Replays
    [acts] from [s] and tells whether, at the end, the last BEGIN that
    completed without error has not been followed by a COMMIT completing
    without error or a ROLLBACK completing. *)
Fixpoint between_begin_and_completion (r : nat → Value → TermCb → M unit)
  (inside : bool) (s : State) (acts : list Action) : bool :=
  match acts with
  | [] => inside
  | act :: rest =>
      let inside' :=
        match act with
        | Complete i vals =>
            match inflight s !! i ≫= (λ c, last_fn (arguments c)) with
            | Some (BeginDone _) =>
                if truthy (param 0 vals) then inside else true
            | Some (CommitDone _ _) =>
                if truthy (param 0 vals) then inside else false
            | Some (RollbackDone _ _) => false
            | _ => inside
            end
        | _ => inside
        end in
      between_begin_and_completion r inside' (step r s act) rest
  end.

(** [beginTransaction] called while [currentTransaction] is null
    registers the transaction at once, whether the BEGIN is then issued
    or has to wait. *)
Lemma beginTransaction_registers r a s :
  isNull (currentTransaction s) = true →
  currentTransaction (snd (beginTransaction r a s)) = VRef Connection ∧
  activations (snd (beginTransaction r a s)) =
    activations s ++ [{| finished := false; callback := callback_arg (head a) |}].
Proof.
  intros H. unfold beginTransaction, _wait. munfold. simpl. rewrite H. simpl.
  rewrite check_unfold. case_bool_decide; simpl; auto.
Qed.


Lemma unfinished_cases s :
  tx_inv s →
  (currentTransaction s = VNull ∧ ∀ tid, ¬ unfinished tid s) ∨
  (currentTransaction s ≠ VNull ∧
   ∃ k, S k = length (activations s) ∧ ∀ tid, unfinished tid s ↔ tid = k).
Proof.
  intros (_ & _ & H). unfold unfinished.
  assert (Hopen : one_open (activations s) →
            ∃ k, S k = length (activations s) ∧
                 ∀ tid, (∃ a, activations s !! tid = Some a ∧ finished a = false)
                        ↔ tid = k).
  { intros (pre & x & Hact & Hx & Hall). exists (length pre).
    rewrite Hact, length_app. simpl. split; [lia|]. intros tid. split.
    - intros (a & Ha & Hf).
      apply lookup_app_Some in Ha as [Ha|[Hge Ha]].
      + eapply Forall_lookup_1 in Hall; [|exact Ha]. simpl in Hall. congruence.
      + apply list_lookup_singleton_Some in Ha as [Ha _]. lia.
    - intros ->. exists x. split; [|exact Hx].
      rewrite lookup_app_r by lia. now rewrite Nat.sub_diag. }
  destruct (currentTransaction s) eqn:Hc;
    try (right; split; [discriminate | now apply Hopen]).
  left. split; [reflexivity|]. intros tid (a & Ha & Hf).
  destruct H as [Hall _].
  eapply Forall_lookup_1 in Hall; [|exact Ha]. simpl in Hall. congruence.
Qed.

(** C2 as stated fails: [beginTransaction] is called on a fresh facade
    while a statement is outstanding.  The transaction is registered at
    once, although its BEGIN has not even been issued: it waits on a
    timer for the counter to reach zero. *)
Lemma registered_before_begin_is_issued :
  let acts := [CallFacade "exec" [UStr "SELECT 1"; UFn 7];
               CallFacade "beginTransaction" [UFn 0]] in
  let s := run program acts fresh in
  currentTransaction s = VRef Connection ∧
  between_begin_and_completion program false fresh acts = false ∧
  ¬ In (Issue "BEGIN;") (map event (log s)) ∧
  timers s = [WaitBegin 0] ∧
  _lock s = 1.
Proof.
  vm_compute. repeat split; try reflexivity.
  intros H. repeat (destruct H as [H|H]; [discriminate|]). exact H.
Qed.

(** * Concrete executions *)

(** A transaction begun and committed on a fresh facade. *)
Definition committed : State :=
  run program [CallFacade "beginTransaction" [UFn 0]; Complete 0 [VNull];
               CallHandle "commit" [UFn 1]; Complete 0 [VNull]] fresh.

Lemma finished_transaction_refuses_witness :
  step program committed (CallHandle "commit" [UFn 2]) =
    logged (Called 2 [commit_refused]) committed ∧
  step program committed (CallHandle "rollback" [UFn 2]) =
    logged (Called 2 [rollback_refused]) committed ∧
  commit program 0 (Fn 2) committed =
    (inl tt, logged (Called 2 [commit_refused]) committed) ∧
  rollback program 0 (ByCaller (Fn 2)) committed =
    (inl tt, logged (Called 2 [rollback_refused]) committed).
Proof.
  pose proof (finished_transaction_refuses program sqlite3_methods
                [CallFacade "beginTransaction" [UFn 0]; Complete 0 [VNull];
                 CallHandle "commit" [UFn 1]; Complete 0 [VNull]] 0 2)
    as (_ & _ & H & _); [vm_compute; reflexivity|].
  apply H. vm_compute. reflexivity.
Defined.

(** A transaction is active; a statement, a configuration call, a second
    [beginTransaction] and another statement have been submitted
    meanwhile. *)
Definition busy : State :=
  run program [CallFacade "beginTransaction" [UFn 0]; Complete 0 [VNull];
               CallFacade "run" [UStr "INSERT 1"; UFn 1];
               CallFacade "configure" [UStr "busyTimeout"];
               CallFacade "beginTransaction" [UFn 2];
               CallFacade "run" [UStr "INSERT 2"]] fresh.

Definition busy_front : list Item :=
  [ {| type := Lock; object := Connection; method := "run";
       args := [AStr "INSERT 1"; AFn (NewCallback (UserF 1))] |};
    {| type := Simple; object := Connection; method := "configure";
       args := [AStr "busyTimeout"] |} ].

Definition busy_request : Item :=
  {| type := Transaction; object := Facade; method := "beginTransaction";
     args := [AFn (UserF 2)] |}.

Definition busy_back : list Item :=
  [ {| type := Lock; object := Connection; method := "run";
       args := [AStr "INSERT 2"; AFn (NewCallback ForwardError)] |} ].

Lemma busy_front_native : Forall (native_item busy) busy_front.
Proof. repeat constructor. Qed.

Lemma completion_drains_queue_witness :
  finishTransaction program 0 VNull (ByCaller (Fn 3)) busy =
  (apply_item program busy_request ;;; call_term (ByCaller (Fn 3)) [VNull])
    (foldl release (set_queue busy_back (closed_state 0 busy)) busy_front) ∧
  queue (snd (finishTransaction program 0 VNull (ByCaller (Fn 3)) busy)) =
    busy_back.
Proof.
  pose proof (completion_drains_queue program 0 VNull (ByCaller (Fn 3)) busy
                busy_front busy_front_native) as [_ [_ [_ [H _]]]].
  split.
  - apply (H busy_request busy_back); vm_compute; reflexivity.
  - vm_compute. reflexivity.
Defined.

(** A COMMIT is outstanding. *)
Definition committing : State :=
  run program [CallFacade "beginTransaction" [UFn 0]; Complete 0 [VNull];
               CallHandle "commit" [UFn 1]] fresh.

Lemma failed_commit_closes_transaction_witness :
  invoke program (CommitDone 0 (Fn 1)) [VError "disk full"] committing =
    _exec "ROLLBACK;" (RollbackDone 0 (rollback_after 0 1 (VError "disk full")))
      committing ∧
  is_finished 0
    (snd (invoke program
            (RollbackDone 0 (rollback_after 0 1 (VError "disk full")))
            [VNull] committing)) = true.
Proof.
  pose proof (failed_commit_closes_transaction program 0 1 (VError "disk full")
                committing eq_refl eq_refl) as [H1 [_ H3]].
  split.
  - exact H1.
  - apply (H3 VNull committing). vm_compute. lia.
Defined.

(** A transaction with a statement of its own and one submitted from
    outside, then committed. *)
Definition session : list Action :=
  [ CallFacade "beginTransaction" [UFn 0]; Complete 0 [VNull];
    CallHandle "run" [UStr "INSERT 1"; UFn 1];
    CallFacade "run" [UStr "INSERT 2"; UFn 2];
    Complete 0 [VNull];
    CallHandle "commit" [UFn 3] ].

(** A locking call is outstanding on a fresh facade. *)
Definition querying : list Action := [ CallFacade "exec" [UStr "SELECT 1"; UFn 7] ].

Lemma lock_counts_outstanding_calls_witness :
  wrapDbMethod program Connection "run" [AStr "INSERT"]
    (run program querying fresh) =
  (inl tt,
   outstanding Connection "run" (hijack [AStr "INSERT"])
     (logged (Dispatch Connection "run" (hijack [AStr "INSERT"]))
        (set_lock (_lock (run program querying fresh) + 1)
           (run program querying fresh)))) ∧
  (1 ≤ _lock (run program querying fresh))%Z ∧
  complete program 0 [VNull] (run program querying fresh) =
  invoke program (UserF 7) [VNull]
    (set_lock (_lock (run program querying fresh) - 1)
       (set_inflight (delete 0%nat (inflight (run program querying fresh)))
          (run program querying fresh))).
Proof.
  pose proof (lock_counts_outstanding_calls program sqlite3_methods querying)
    as (_ & Hw & _ & Hc & _).
  split.
  - apply (Hw Connection "run" [AStr "INSERT"]).
    + reflexivity.
    + change ("run" ∈ sqlite3_methods).
      apply (bool_decide_eq_true_1 _). vm_compute. reflexivity.
  - apply (Hc 0%nat {| target := Connection; name := "exec";
                   arguments := [AStr "SELECT 1"; AFn (NewCallback (UserF 7))] |}
              (UserF 7) [VNull]); vm_compute; reflexivity.
Defined.

Lemma handle_is_the_connection_witness :
  step program (run program session fresh) (CallHandle "run" [UStr "INSERT 3"]) =
  outstanding Connection "run" [AStr "INSERT 3"]
    (logged (Dispatch Connection "run" [AStr "INSERT 3"])
       (run program session fresh)) ∧
  invoke program (BeginDone 0) [VNull] (run program session fresh) =
  call (callback_of 0 (run program session fresh)) [VNull; VRef Connection]
    (run program session fresh).
Proof.
  pose proof (handle_is_the_connection program sqlite3_methods session)
    as (_ & _ & _ & Hn & _ & Hb & _).
  split.
  - apply (Hn "run" [UStr "INSERT 3"]). vm_compute. reflexivity.
  - apply (Hb 0%nat [VNull]). reflexivity.
Defined.

(** * Further properties of the source *)

(** ** A finished transaction stays finished *)

(** X1. Once [finishTransaction] has set the [finished] flag of an
    activation, no later call, completion, timer or event resets it: in
    every later state the [commit] and [rollback] closures of that
    activation only call their callback with the "already finished"
    error. *)
Theorem finished_forever r tid id acts s
  (Hfinished : is_finished tid s = true) :
  is_finished tid (run r acts s) = true ∧
  commit r tid (Fn id) (run r acts s) =
    (inl tt, logged (Called id [commit_refused]) (run r acts s)) ∧
  rollback r tid (ByCaller (Fn id)) (run r acts s) =
    (inl tt, logged (Called id [rollback_refused]) (run r acts s)).
Proof.
  assert (H : is_finished tid (run r acts s) = true).
  { revert Hfinished.
    apply (stable_run (λ s, is_finished tid s = true) r); intros;
      first [ assumption | now apply is_finished_begin
            | now apply is_finished_finish ]. }
  split; [exact H|]. unfold commit, rollback. now rewrite H.
Qed.

(** ** The wrappers [wrapObject] puts on the facade *)

Lemma emitter_prohibited m : m ∈ emitterMethods → m ∈ prohibitedMethods.
Proof.
  unfold emitterMethods, prohibitedMethods.
  rewrite !elem_of_cons, elem_of_nil. tauto.
Qed.

Lemma facade_methods_lookup methods m :
  facade_methods methods !! m =
  if bool_decide (m = "prepare") then Some PrepareWrapper
  else if bool_decide (m ∈ methods ∧ m ∉ prohibitedMethods)
       then Some (Wrapped Connection m)
       else None.
Proof.
  unfold facade_methods, wrapObject. case_bool_decide as Hp.
  { subst. apply lookup_insert_eq. }
  rewrite lookup_insert_ne by congruence.
  rewrite lookup_union_l by apply lookup_empty.
  rewrite map_lookup_imap, database_lookup.
  destruct (bool_decide (m ∈ methods)) eqn:Hm; simpl.
  - apply bool_decide_eq_true in Hm.
    destruct (bool_decide (m ∈ prohibitedMethods)) eqn:Hpr.
    + apply bool_decide_eq_true in Hpr.
      rewrite bool_decide_eq_false_2; [reflexivity | tauto].
    + apply bool_decide_eq_false in Hpr.
      rewrite bool_decide_eq_true_2; [reflexivity | tauto].
  - apply bool_decide_eq_false in Hm.
    rewrite bool_decide_eq_false_2; [reflexivity | tauto].
Qed.

(** ** An idle facade is transparent for non-locking methods *)

(** X3. While no transaction is registered, calling a non-locking
    method of the database on the facade does exactly what calling it
    on the connection object does: same arguments, no change of the
    counter, nothing queued. *)
Theorem idle_facade_is_transparent r methods acts m a
  (Hm : m ∈ methods) (Hp : m ∉ prohibitedMethods)
  (Hl : locking m = false)
  (Hidle : isNull (currentTransaction (run r acts (TransactionDatabase methods)))
           = true) :
  step r (run r acts (TransactionDatabase methods)) (CallFacade m a) =
  step r (run r acts (TransactionDatabase methods)) (CallHandle m a).
Proof.
  set (s := run r acts (TransactionDatabase methods)) in *.
  assert (H : inv methods false s).
  { apply inv_run; [discriminate | apply inv_initial]. }
  unfold step, handler.
  rewrite bool_decide_eq_false_2 by (intros He; now apply emitter_prohibited in He).
  unfold apply_facade. rewrite (inv_own _ _ _ H), facade_methods_lookup.
  rewrite bool_decide_eq_false_2
    by (intros ->; apply Hp; apply (bool_decide_eq_true_1 _); reflexivity).
  rewrite bool_decide_eq_true_2 by tauto.
  unfold wrapDbMethod. munfold. simpl. now rewrite Hidle, Hl.
Qed.

(** ** Events of the connection *)








(** ** The wrapper touches only the trailing argument *)

(** X5. [hijack] leaves every argument in place except a trailing
    function: an argument that is not the last one, or that is not a
    function, is found at the same position afterwards; the argument
    list keeps its length or grows by one. *)
Theorem hijack_keeps_other_arguments (a : list Arg) (i : nat) (x : Arg)
  (Hx : a !! i = Some x)
  (Hother : (S i < length a)%nat ∨ ∀ f, x ≠ AFn f) :
  hijack a !! i = Some x ∧
  (length a ≤ length (hijack a) ≤ S (length a))%nat.
Proof.
  pose proof (lookup_lt_Some _ _ _ Hx) as Hlt.
  unfold hijack. pose proof (last_lookup a) as Hlast.
  destruct (last a) as [[v|t|f]|] eqn:E;
    try (rewrite length_app; simpl; split; [now apply lookup_app_l_Some | lia]).
  rewrite length_app, length_take. simpl.
  split; [|lia].
  assert (Hi : (i < length a - 1)%nat).
  { destruct Hother as [|Hne]; [lia|].
    destruct (decide (i = pred (length a))) as [->|]; [|lia].
    rewrite Hx in Hlast. injection Hlast as <-. now destruct (Hne f). }
  rewrite lookup_app_l by (rewrite length_take; lia).
  now rewrite lookup_take_lt.
Qed.

(** ** The gate opens when nothing is counted *)

(** X6. In every execution, when no locking call is outstanding the
    counter is zero, so a waiting BEGIN, COMMIT or ROLLBACK is issued
    at the next firing of its timer: the counter cannot leak and block
    a transaction boundary for ever. *)
Theorem idle_connection_opens_gate r methods acts i w
  (Hidle : count_locking
             (inflight (run r acts (TransactionDatabase methods))) = 0%nat)
  (Hw : timers (run r acts (TransactionDatabase methods)) !! i = Some w) :
  let s := run r acts (TransactionDatabase methods) in
  _lock s = 0 ∧
  step r s (Tick i) =
  outstanding Connection "exec"
    [AStr (match w with
           | WaitBegin _ => "BEGIN;"
           | WaitCommit _ _ => "COMMIT;"
           | WaitRollback _ _ => "ROLLBACK;"
           end);
     AFn (match w with
          | WaitBegin tid => BeginDone tid
          | WaitCommit tid cb => CommitDone tid cb
          | WaitRollback tid cb => RollbackDone tid cb
          end)]
    (logged (Issue (match w with
                    | WaitBegin _ => "BEGIN;"
                    | WaitCommit _ _ => "COMMIT;"
                    | WaitRollback _ _ => "ROLLBACK;"
                    end))
       (set_timers (delete i (timers s)) s)).
Proof.
  intros s.
  assert (H : inv methods false s).
  { apply inv_run; [discriminate | apply inv_initial]. }
  assert (Hz : _lock s = 0).
  { rewrite (inv_lock _ _ _ H). fold s in Hidle. now rewrite Hidle. }
  split; [exact Hz|].
  unfold step, handler, tick. fold s in Hw. rewrite Hw.
  unfold bind, modify. simpl. rewrite check_unfold. simpl.
  rewrite bool_decide_eq_true_2 by exact Hz.
  now destruct w.
Qed.

(** ** While a transaction is registered *)

(** X7. In every execution, while a transaction is registered, a call
    of [beginTransaction] or of a wrapped method of the database on the
    facade, and a call of a wrapped method of a prepared statement,
    hand nothing to the connection: the call returns having appended
    exactly one item, for that method, at the tail of the queue, and
    nothing else has changed, not even the trace. *)
Theorem registered_transaction_defers_calls r methods acts
  (Hbusy : isNull (currentTransaction (run r acts (TransactionDatabase methods)))
           = false) :
  let s := run r acts (TransactionDatabase methods) in
  (∀ m a, m = "beginTransaction" ∨ (m ∈ methods ∧ m ∉ prohibitedMethods) →
     ∃ i, handler r (CallFacade m a) s = (inl tt, set_queue (queue s ++ [i]) s) ∧
          method i = m ∧
          args i = (if locking m then hijack (inject <$> a)
                    else inject <$> a)) ∧
  (∀ n m a, m ∉ prohibitedMethods →
     ∃ i, handler r (CallStatement n m a) s =
            (inl tt, set_queue (queue s ++ [i]) s) ∧
          object i = Statement n ∧ method i = m ∧
          args i = (if locking m then hijack (inject <$> a) else inject <$> a)).
Proof.
  intros s. fold s in Hbusy.
  assert (H : inv methods false s).
  { apply inv_run; [discriminate | apply inv_initial]. }
  split.
  - intros m a Hm. unfold handler.
    assert (He : m ∉ emitterMethods).
    { intros He. destruct Hm as [->|[_ Hp]].
      - unfold emitterMethods in He. rewrite !elem_of_cons, elem_of_nil in He.
        destruct He as [E|[E|[E|[E|[E|[E|[E|[E|[]]]]]]]]]; discriminate E.
      - now apply Hp, emitter_prohibited. }
    assert (Hprep : m ≠ "prepare").
    { intros ->. destruct Hm as [E|[_ Hp]]; [discriminate E|].
      apply Hp. apply (bool_decide_eq_true_1 _). reflexivity. }
    rewrite bool_decide_eq_false_2 by exact He.
    unfold apply_facade. rewrite (inv_own _ _ _ H), facade_methods_lookup.
    rewrite bool_decide_eq_false_2 by exact Hprep.
    case_bool_decide as Hw.
    + unfold wrapDbMethod. munfold. simpl. rewrite Hbusy. simpl.
      eexists. split; [reflexivity|]. simpl. split; reflexivity.
    + destruct Hm as [->|Hm]; [|contradiction].
      rewrite bool_decide_eq_true_2 by reflexivity.
      unfold beginTransaction. munfold. simpl. rewrite Hbusy. simpl.
      eexists. split; [reflexivity|]. simpl. split; [reflexivity|].
      reflexivity.
  - intros n m a Hm. unfold handler.
    rewrite bool_decide_eq_false_2 by exact Hm.
    unfold wrapDbMethod. munfold. simpl. rewrite Hbusy. simpl.
    eexists. split; [reflexivity|]. simpl. auto.
Qed.

(** ** Calls queued during a transaction run in the order submitted *)

(** The item the wrapper queues for a call of method [c.1] with
    arguments [c.2] on the facade, and the call the connection gets
    when the item is released. *)
Definition item_of (c : string * list UArg) : Item :=
  {| type := if locking (fst c) then Lock else Simple;
     object := Connection;
     method := fst c;
     args := if locking (fst c) then hijack (inject <$> snd c)
             else inject <$> snd c |}.

Definition call_of (c : string * list UArg) : Call :=
  {| target := Connection; name := fst c; arguments := args (item_of c) |}.

Definition submit (calls : list (string * list UArg)) : list Action :=
  (λ c, CallFacade (fst c) (snd c)) <$> calls.

(** A call of a wrapped, native method of the connection. *)
Definition callable (s : State) (c : string * list UArg) : Prop :=
  ¬ (fst c ∈ emitterMethods) ∧
  own s !! fst c = Some (Wrapped Connection (fst c)) ∧
  db s !! fst c = Some Native.

Lemma set_queue_twice q q' s : set_queue q (set_queue q' s) = set_queue q s.
Proof. reflexivity. Qed.

Lemma submit_queues r calls : ∀ s,
  isNull (currentTransaction s) = false → Forall (callable s) calls →
  run r (submit calls) s = set_queue (queue s ++ map item_of calls) s.
Proof.
  induction calls as [|c calls IH]; intros s Hbusy Hcalls; simpl.
  - now rewrite app_nil_r, set_queue_same.
  - inversion Hcalls as [|? ? (He & Hown & Hdb) Hrest]; subst.
    assert (Hstep : step r s (CallFacade (fst c) (snd c)) =
                    set_queue (queue s ++ [item_of c]) s).
    { unfold step, handler. rewrite bool_decide_eq_false_2 by exact He.
      unfold apply_facade. rewrite Hown.
      unfold wrapDbMethod. munfold. simpl. now rewrite Hbusy. }
    fold (run r (submit calls) (step r s (CallFacade (fst c) (snd c)))).
    rewrite Hstep, IH; [| exact Hbusy | exact Hrest].
    simpl. now rewrite <- app_assoc.
Qed.

Lemma inflight_foldl_release items : ∀ s,
  inflight (foldl release s items) =
  inflight s ++
  map (λ i, {| target := object i; name := method i; arguments := args i |})
      items.
Proof.
  induction items as [|i items IH]; intros s; simpl.
  - now rewrite app_nil_r.
  - rewrite IH. unfold release. destruct (is_lock (type i)); simpl;
      now rewrite <- app_assoc.
Qed.

Lemma lock_foldl_release items : ∀ s,
  _lock (foldl release s items) =
  _lock s + Z.of_nat (length (filter (λ i, is_lock (type i) = true) items)).
Proof.
  induction items as [|i items IH]; intros s; simpl.
  - lia.
  - rewrite IH, filter_cons. unfold release.
    destruct (is_lock (type i)); simpl; lia.
Qed.

Lemma frame_foldl_release items : ∀ s,
  currentTransaction (foldl release s items) = currentTransaction s ∧
  activations (foldl release s items) = activations s.
Proof.
  induction items as [|i items IH]; intros s; simpl; [auto|].
  destruct (IH (release s i)) as [-> ->]. unfold release.
  now destruct (is_lock (type i)).
Qed.

Lemma frame_call_term cb vals s :
  let s' := snd (call_term cb vals s) in
  inflight s' = inflight s ∧ queue s' = queue s ∧ _lock s' = _lock s ∧
  currentTransaction s' = currentTransaction s ∧
  activations s' = activations s.
Proof. destruct cb as [[]|[]|]; simpl; auto. Qed.

Lemma locking_items calls :
  length (filter (λ i, is_lock (type i) = true) (map item_of calls)) =
  length (filter (λ c, locking (fst c) = true) calls).
Proof.
  induction calls as [|c calls IH]; simpl; [reflexivity|].
  rewrite !filter_cons. simpl. destruct (locking (fst c)); simpl; now rewrite IH.
Qed.

Lemma finishTransaction_native r tid e cb s :
  Forall (native_item s) (queue s) →
  finishTransaction r tid e cb s =
  call_term cb [e] (foldl release (set_queue [] (closed_state tid s)) (queue s)).
Proof.
  intros Hq.
  assert (Hnative : Forall (native_item (closed_state tid s))
                      (queue (closed_state tid s))).
  { simpl. eapply Forall_impl; [exact Hq|]. intros x. now apply native_item_db. }
  unfold finishTransaction. munfold. fold (closed_state tid s).
  now rewrite (runQueue_all_native r _ Hnative).
Qed.

(** The call the connection gets when a queued item is released. *)
Definition call_of_item (i : Item) : Call :=
  {| target := object i; name := method i; arguments := args i |}.

(** X8. A transaction is registered and no transaction request waits
    in the queue: what is queued are calls of native methods.  The
    callers call wrapped native methods on the facade, one after the
    other.  Nothing happens but the queue growing by one item per call,
    in that order.  When the transaction then finishes, every queued
    call, those from before and the new ones, is handed to the
    connection in the order in which it was queued, behind what was
    outstanding before; the queue is empty and the counter has gone up
    by the number of locking calls among them. *)
Theorem queued_calls_run_in_order r tid e cb calls s
  (Hbusy : isNull (currentTransaction s) = false)
  (Hcalls : Forall (callable s) calls)
  (Hqueue : Forall (native_item s) (queue s)) :
  run r (submit calls) s = set_queue (queue s ++ map item_of calls) s ∧
  let s' := snd (finishTransaction r tid e cb (run r (submit calls) s)) in
  inflight s' =
    inflight s ++ map call_of_item (queue s) ++ map call_of calls ∧
  queue s' = [] ∧
  _lock s' =
    _lock s +
    Z.of_nat (length (filter (λ i, is_lock (type i) = true) (queue s))) +
    Z.of_nat (length (filter (λ c, locking (fst c) = true) calls)).
Proof.
  pose proof (submit_queues r calls s Hbusy Hcalls) as Hrun.
  split; [exact Hrun|].
  rewrite Hrun. clear Hrun. simpl.
  set (s1 := set_queue (queue s ++ map item_of calls) s).
  assert (Hnative : Forall (native_item s1) (queue s1)).
  { simpl. apply Forall_app. split.
    - eapply Forall_impl; [exact Hqueue|]. intros x. now apply native_item_db.
    - apply Forall_forall. intros i Hi.
      apply list_elem_of_fmap in Hi as [c [-> Hc]].
      eapply Forall_forall in Hcalls; [|exact Hc].
      destruct Hcalls as (_ & _ & Hdb). split; simpl; [|exact Hdb].
      now destruct (locking (fst c)). }
  rewrite (finishTransaction_native r tid e cb s1 Hnative). simpl.
  destruct (frame_call_term cb [e]
              (foldl release (set_queue [] (closed_state tid s1))
                 (queue s ++ map item_of calls))) as (-> & -> & -> & _).
  rewrite inflight_foldl_release, queue_foldl_release, lock_foldl_release.
  rewrite filter_app, length_app, locking_items, map_app, map_map.
  simpl. repeat split. lia.
Qed.

(** ** A queued transaction starts at the drain *)

(** X9. The head of the queue is a transaction request when a
    transaction finishes: the drain starts it, so that when the
    finishing caller's callback runs the request is already the
    registered transaction, with its own activation and callback, its
    BEGIN issued or waiting for the counter; what was queued behind it
    stays queued. *)
Theorem queued_transaction_starts_at_drain r tid e id a post s
  (Hq : queue s = {| type := Transaction; object := Facade;
                     method := "beginTransaction"; args := a |} :: post)
  (Hown : own s !! "beginTransaction" = None) :
  let started :=
    set_db (<["rollback" := RollbackOf (length (activations s))]>
              (<["commit" := CommitOf (length (activations s))]> (db s)))
      (set_currentTransaction (VRef Connection)
         (set_activations
            (alter finish_activation tid (activations s) ++
             [{| finished := false; callback := callback_arg (head a) |}])
            (set_queue post s))) in
  finishTransaction r tid e (ByCaller (Fn id)) s =
  (inl tt,
   logged (Called id [e])
     (if bool_decide (_lock s = 0)
      then outstanding Connection "exec"
             [AStr "BEGIN;"; AFn (BeginDone (length (activations s)))]
             (logged (Issue "BEGIN;") started)
      else set_timers (timers s ++ [WaitBegin (length (activations s))])
             (logged Retry started))).
Proof.
  intros started. unfold finishTransaction. munfold.
  fold (closed_state tid s).
  rewrite (runQueue_until_transaction r (closed_state tid s) [] _ post Hq);
    [|constructor|reflexivity].
  unfold apply_item, apply_facade. munfold. simpl. rewrite Hown. simpl.
  unfold beginTransaction, _wait. munfold. simpl.
  rewrite check_unfold. simpl. rewrite length_alter.
  case_bool_decide; reflexivity.
Qed.

(** ** Commit without a callback *)

(** X10. [tr.commit()] called without a callback, as the README's and
    the example's last line do: when the COMMIT succeeds the
    transaction is closed and the queue released exactly as with a
    callback, and only then calling the missing callback raises a
    TypeError. *)
Theorem commit_without_callback_still_closes r tid id s
  (Hq : Forall (native_item s) (queue s))
  (Htid : (tid < length (activations s))%nat) :
  let s' := foldl release (set_queue [] (closed_state tid s)) (queue s) in
  invoke r (CommitDone tid NotAFunction) [VNull] s = (inr TypeError, s') ∧
  invoke r (CommitDone tid (Fn id)) [VNull] s =
    (inl tt, logged (Called id [VNull]) s') ∧
  is_finished tid s' = true ∧ currentTransaction s' = VNull ∧ queue s' = [].
Proof.
  intros s'.
  assert (Hrun : ∀ cb, finishTransaction r tid VNull (ByCaller cb) s =
                       call cb [VNull] s').
  { intros cb. now rewrite (finishTransaction_native r tid VNull _ s Hq). }
  split; [apply (Hrun NotAFunction)|]. split; [apply (Hrun (Fn id))|].
  unfold s'. destruct (frame_foldl_release (queue s)
                         (set_queue [] (closed_state tid s))) as [Hc Ha].
  split; [|split; [now rewrite Hc | now rewrite queue_foldl_release]].
  unfold is_finished. rewrite Ha.
  now apply (closed_state_finished tid s).
Qed.

(** ** What a handler can throw *)

(** The exceptions a caller can provoke: calling something that is not
    a function, and an 'error' event nobody listens to.  The other two
    are the wrapper's own "Locks are not ballanced" and the bound on the
    loop of [_runQueue]. *)
Definition benign (x : Exn) : bool :=
  match x with
  | TypeError | UnhandledError _ => true
  | LocksNotBalanced | StackExhausted => false
  end.

Definition throws_benign {A} (m : M A) (s : State) : Prop :=
  ∀ x, fst (m s) = inr x → benign x = true.

Lemma benign_bind {A B} (m : M A) (k : A → M B) s :
  throws_benign m s →
  (∀ a, fst (m s) = inl a → throws_benign (k a) (snd (m s))) →
  throws_benign (bind m k) s.
Proof.
  intros Hm Hk x. unfold bind.
  specialize (Hm x). destruct (m s) as [[a|y] s'] eqn:E; simpl in *.
  - now apply Hk.
  - intros E'. apply Hm. now inversion E'.
Qed.

Lemma benign_call cb vals s : throws_benign (call cb vals) s.
Proof. intros x. destruct cb; simpl; intros H; now inversion H. Qed.

Lemma benign_call_term cb vals s : throws_benign (call_term cb vals) s.
Proof. destruct cb; simpl; try apply benign_call. intros x H. inversion H. Qed.

Lemma check_returns r w s : fst (check r w s) = inl tt.
Proof.
  rewrite check_unfold. case_bool_decide; [|reflexivity]. now destruct w.
Qed.

Lemma native_returns o m a s : fst (native o m a s) = inl tt.
Proof. reflexivity. Qed.

Lemma benign_commit r tid cb s : throws_benign (commit r tid cb) s.
Proof.
  unfold throws_benign, commit. destruct (is_finished tid s); [apply benign_call|].
  intros x H. unfold _wait in H. now rewrite check_returns in H.
Qed.

Lemma benign_rollback r tid cb s : throws_benign (rollback r tid cb) s.
Proof.
  unfold throws_benign, rollback. destruct (is_finished tid s); [apply benign_call_term|].
  intros x H. unfold _wait in H. now rewrite check_returns in H.
Qed.

Lemma benign_handle_rollback r f s : throws_benign (handle_rollback r f) s.
Proof.
  unfold throws_benign, handle_rollback.
  destruct (db s !! "rollback") as [[]|]; try (intros x H; now inversion H).
  apply benign_rollback.
Qed.

Lemma benign_error_listener r this s : throws_benign (error_listener r this) s.
Proof.
  unfold throws_benign, error_listener. unfold bind, gets. simpl.
  destruct (negb _); [|intros x H; now inversion H].
  destruct (read_currentTransaction this s) as [[| | |[]]|];
    try (intros x H; now inversion H).
  apply benign_handle_rollback.
Qed.

Lemma benign_intercepted_emit r a s : throws_benign (intercepted_emit r a) s.
Proof.
  unfold throws_benign, intercepted_emit. unfold bind at 1. unfold gets. simpl.
  apply benign_bind.
  - destruct (_ && _); intros x H; now inversion H.
  - intros _ _. destruct (is_error_event a); simpl.
    + apply benign_error_listener.
    + intros x H. inversion H.
Qed.

Lemma benign_apply_raw r o m a s : throws_benign (apply_raw r o m a) s.
Proof.
  unfold throws_benign, apply_raw. destruct o; try (intros x H; now inversion H).
  destruct (db s !! m) as [[]|]; try (intros x H; now inversion H).
  - apply benign_intercepted_emit.
  - apply benign_commit.
  - apply benign_rollback.
Qed.

Lemma benign_wrapDbMethod r o m a s : throws_benign (wrapDbMethod r o m a) s.
Proof.
  unfold throws_benign, wrapDbMethod. unfold bind at 1. unfold gets. simpl.
  destruct (isNull _); [|intros x H; now inversion H].
  apply benign_bind.
  - destruct (locking m); intros x H; inversion H.
  - intros _ _. apply benign_apply_raw.
Qed.

Lemma beginTransaction_returns r a s : fst (beginTransaction r a s) = inl tt.
Proof.
  unfold beginTransaction. munfold. simpl.
  destruct (negb _); [reflexivity|]. unfold _wait. apply check_returns.
Qed.

Lemma benign_apply_facade r m a s : throws_benign (apply_facade r m a) s.
Proof.
  unfold throws_benign, apply_facade.
  destruct (own s !! m) as [[]|]; try (intros x H; now inversion H).
  - apply benign_wrapDbMethod.
  - case_bool_decide; [|intros x E; now inversion E].
    intros x E. now rewrite beginTransaction_returns in E.
Qed.

Lemma benign_apply_item r i s : throws_benign (apply_item r i) s.
Proof.
  unfold throws_benign, apply_item.
  destruct (object i); first [apply benign_apply_raw | apply benign_apply_facade].
Qed.

(** An item that is not a transaction request leaves the queue as it
    is when it runs. *)
Lemma apply_raw_queue r o m a s :
  queue (snd (apply_raw r o m a s)) = queue s.
Proof.
  now apply (stable_apply_raw (λ s', queue s' = queue s) r).
Qed.

Lemma apply_item_queue methods r i s :
  item_ok methods i → is_transaction (type i) = false →
  queue (snd (apply_item r i s)) = queue s.
Proof.
  unfold item_ok, apply_item. intros Hi Ht.
  destruct (object i); try apply apply_raw_queue.
  destruct Hi as [Hi _]. rewrite Hi in Ht. discriminate.
Qed.

(** The loop of [_runQueue] makes at most as many turns as there are
    items in the queue when it starts. *)
Lemma benign_runQueue_loop methods r n : ∀ s,
  inv methods false s → (length (queue s) ≤ n)%nat →
  throws_benign (runQueue_loop r n) s.
Proof.
  induction n as [|n IH]; intros s H Hn; unfold throws_benign; simpl.
  - destruct (queue s); [|simpl in Hn; lia]. intros x E. inversion E.
  - destruct (queue s) as [|i rest] eqn:Hq; [intros x E; inversion E|].
    pose proof (inv_queue _ _ _ H) as Hitems. rewrite Hq in Hitems.
    inversion Hitems as [|? ? Hi Hrest]; subst.
    assert (H1 : inv methods false (set_queue rest s))
      by now apply inv_queue_set.
    simpl in Hn. munfold. simpl. destruct (is_lock (type i)) eqn:Hl; simpl.
    + destruct (inv_apply_item_lock methods false r i (set_queue rest s) Hi Hl H1)
        as [H2 _].
      pose proof (benign_apply_item r i (set_lock (_lock s + 1) (set_queue rest s)))
        as Hb.
      unfold throws_benign in Hb.
      assert (Ht : is_transaction (type i) = false)
        by (destruct (type i); try discriminate; reflexivity).
      pose proof (apply_item_queue methods r i
                    (set_lock (_lock s + 1) (set_queue rest s)) Hi Ht) as Hq2.
      simpl in H2, Hq2.
      destruct (apply_item r i _) as [[u|y] s2]; simpl in *.
      * rewrite Ht. apply IH; [exact H2 | rewrite Hq2; lia].
      * exact Hb.
    + destruct (inv_apply_item_other methods false r i (set_queue rest s) Hi Hl)
        as [H2 _]; [discriminate | exact H1 |].
      pose proof (benign_apply_item r i (set_queue rest s)) as Hb.
      unfold throws_benign in Hb.
      destruct (is_transaction (type i)) eqn:Ht.
      * destruct (apply_item r i _) as [[u|y] s2]; simpl in *;
          [intros x E; inversion E | exact Hb].
      * pose proof (apply_item_queue methods r i (set_queue rest s) Hi Ht) as Hq2.
        simpl in Hq2.
        destruct (apply_item r i _) as [[u|y] s2]; simpl in *.
        -- apply IH; [exact H2 | rewrite Hq2; lia].
        -- exact Hb.
Qed.

Lemma benign_finishTransaction methods r tid e cb s :
  inv methods false s → throws_benign (finishTransaction r tid e cb) s.
Proof.
  intros H. unfold finishTransaction. unfold bind at 1 2. unfold modify at 1 2.
  simpl. fold (closed_state tid s).
  apply benign_bind.
  - unfold _runQueue. apply (benign_runQueue_loop methods); [|lia].
    apply inv_closed_state; [discriminate | exact H].
  - intros _ _. apply benign_call_term.
Qed.

Lemma benign_invoke_plain r f vals s :
  plain_fn f = true → throws_benign (invoke r f vals) s.
Proof.
  destruct f; try discriminate; intros _; unfold throws_benign; simpl.
  - destruct (truthy _); simpl; [apply benign_apply_raw|intros x H; inversion H].
  - apply benign_call.
Qed.

Lemma benign_complete methods r i vals s :
  inv methods false s → throws_benign (complete r i vals) s.
Proof.
  intros H. unfold throws_benign, complete.
  destruct (inflight s !! i) as [c|] eqn:Hi; [|intros x E; inversion E].
  unfold bind, modify. simpl.
  pose proof (Forall_lookup_1 _ _ _ _ (inv_inflight _ _ _ H) Hi) as Hok.
  simpl in Hok. unfold call_ok, last_fn in Hok.
  destruct (last (arguments c)) as [[v|t|f]|] eqn:Hlast;
    try (intros x E; now inversion E).
  destruct (plain_fn f) eqn:Hp; [now apply benign_invoke_plain|].
  destruct f; try discriminate Hp; simpl.
  - destruct (inv_removed_counted methods false i c s Hi) as [Hlk H1]; auto.
    { unfold counted, last_fn. now rewrite Hlast. }
    rewrite bool_decide_eq_false_2 by exact Hlk.
    unfold bind, modify. simpl. now apply benign_invoke_plain.
  - unfold bind, gets. simpl. destruct (truthy _); apply benign_call.
  - destruct (inv_removed_terminal methods false i c tid s Hi) as [H1 _]; auto.
    { unfold call_tid, last_fn. now rewrite Hlast. }
    destruct (truthy _).
    + apply benign_handle_rollback.
    + now apply (benign_finishTransaction methods).
  - destruct (inv_removed_terminal methods false i c tid s Hi) as [H1 _]; auto.
    { unfold call_tid, last_fn. now rewrite Hlast. }
    now apply (benign_finishTransaction methods).
Qed.

(** X11. In every execution, whatever happens next, the only
    exceptions that escape are the caller's own: a TypeError (something
    that is not a function was called, or a method that does not exist)
    and the unhandled 'error' event.  The wrapper's "Locks are not
    ballanced" error is never thrown, and the loop of [_runQueue] ends
    within as many turns as the queue has items. *)
Theorem only_caller_errors_escape r methods acts act x
  (Hthrows : fst (handler r act (run r acts (TransactionDatabase methods)))
             = inr x) :
  x = TypeError ∨ ∃ e, x = UnhandledError e.
Proof.
  assert (H : inv methods false (run r acts (TransactionDatabase methods))).
  { apply inv_run; [discriminate | apply inv_initial]. }
  assert (Hb : benign x = true).
  { revert x Hthrows. fold (throws_benign (handler r act)
                              (run r acts (TransactionDatabase methods))).
    destruct act; unfold throws_benign; simpl.
    - case_bool_decide; [intros x E; inversion E | apply benign_apply_facade].
    - apply benign_apply_raw.
    - case_bool_decide; [intros x E; inversion E | apply benign_wrapDbMethod].
    - intros x E. inversion E.
    - now apply (benign_complete methods).
    - unfold tick.
      destruct (timers (run r acts (TransactionDatabase methods)) !! i);
        [|intros x E; inversion E].
      unfold bind, modify. simpl. intros x E. now rewrite check_returns in E.
    - apply benign_apply_raw. }
  destruct x; try discriminate Hb; eauto.
Qed.

(** ** [prepare] is never deferred *)

(** X12. The facade's own [prepare] goes straight to the connection in
    every state, also while a transaction is registered: it is not
    queued, its arguments are passed as they are and the counter is not
    touched. *)
Theorem prepare_bypasses_transaction r methods acts a
  (Hprepare : "prepare" ∈ methods) :
  let s := run r acts (TransactionDatabase methods) in
  db s !! "prepare" = Some Native ∧
  step r s (CallFacade "prepare" a) =
  outstanding Connection "prepare" (inject <$> a)
    (logged (Dispatch Connection "prepare" (inject <$> a)) s).
Proof.
  intros s.
  assert (H : inv methods false s).
  { apply inv_run; [discriminate | apply inv_initial]. }
  split.
  - rewrite (inv_db _ _ _ H), handle_methods_lookup by discriminate.
    now rewrite bool_decide_eq_true_2.
  - unfold step, handler. rewrite bool_decide_eq_false_2.
    + unfold apply_facade. rewrite (inv_own _ _ _ H), facade_methods_lookup.
      rewrite bool_decide_eq_true_2 by reflexivity. now rewrite native_eq.
    + unfold emitterMethods. rewrite !elem_of_cons, elem_of_nil.
      intros [E|[E|[E|[E|[E|[E|[E|[E|[]]]]]]]]]; discriminate E.
Qed.

(** ** The handle's [commit] and [rollback] *)

(** X13. Every transaction handle is the connection object itself, so
    there is one [commit] and one [rollback] at any time: in every
    execution they are those of the transaction begun last, whichever
    handle they are called on; before the first [beginTransaction]
    they are the database's own methods of that name, if it has any. *)
Theorem handle_belongs_to_latest_transaction r methods acts :
  let s := run r acts (TransactionDatabase methods) in
  match length (activations s) with
  | O =>
      db s !! "commit" =
        (if bool_decide ("commit" ∈ methods) then Some Native else None) ∧
      db s !! "rollback" =
        (if bool_decide ("rollback" ∈ methods) then Some Native else None)
  | S k =>
      db s !! "commit" = Some (CommitOf k) ∧
      db s !! "rollback" = Some (RollbackOf k)
  end.
Proof.
  intros s.
  assert (H : inv methods false s).
  { apply inv_run; [discriminate | apply inv_initial]. }
  rewrite (inv_db _ _ _ H). destruct (length (activations s)).
  - simpl. rewrite !lookup_insert_ne by discriminate.
    split; apply database_lookup.
  - split; [apply handle_methods_commit | apply handle_methods_rollback].
Qed.

(** ** A waiting boundary statement is not lost *)

(** The call of [_exec] a waiter makes when the gate opens. *)
Definition boundary_call (w : Waiter) : Call :=
  {| target := Connection; name := "exec";
     arguments :=
       match w with
       | WaitBegin tid => [AStr "BEGIN;"; AFn (BeginDone tid)]
       | WaitCommit tid cb => [AStr "COMMIT;"; AFn (CommitDone tid cb)]
       | WaitRollback tid cb => [AStr "ROLLBACK;"; AFn (RollbackDone tid cb)]
       end |}.

Lemma waiter_kept (m : M unit) w s :
  (∀ I : State → Prop,
     (∀ e s, I s → I (logged e s)) →
     (∀ o m a s, I s → I (outstanding o m a s)) →
     (∀ i s, I s → I (set_inflight (delete i (inflight s)) s)) →
     (∀ w s, I s → I (set_timers (timers s ++ [w]) s)) →
     (∀ q s, I s → I (set_queue q s)) →
     (∀ z s, I s → I (set_lock z s)) →
     (∀ s, I s → I (set_listening true s)) →
     (∀ a s, I s → I (set_activations (activations s ++ [a]) s)) →
     (∀ tid s, I s →
        I (set_activations (alter finish_activation tid (activations s)) s)) →
     (∀ v s, I s → I (set_currentTransaction v s)) →
     (∀ d s, I s → I (set_db d s)) →
     keeps I m) →
  w ∈ timers s → w ∈ timers (snd (m s)).
Proof.
  intros Hm Hw.
  apply (Hm (λ s', w ∈ timers s')); try (intros; assumption).
  intros w' s' Hs'. simpl. apply elem_of_app. now left.
Qed.

(** X14. A BEGIN, COMMIT or ROLLBACK waiting on a timer is never
    dropped: whatever happens next, it is still waiting afterwards or
    its statement has just been handed to the connection. *)
Theorem waiter_is_never_dropped r act w s
  (Hw : w ∈ timers s) :
  w ∈ timers (step r s act) ∨ boundary_call w ∈ inflight (step r s act).
Proof.
  assert (Hother : (∀ i, act ≠ Tick i) → w ∈ timers (step r s act)).
  { intros Hact. unfold step.
    assert (Hk : w ∈ timers (snd (handler r act s))).
    { apply waiter_kept; [|exact Hw]. intros I H1 H2 H3 H4 H5 H6 H7 H8 H9 H10 H11.
      destruct act; simpl.
      - case_bool_decide; [apply keeps_ret | apply stable_apply_facade; auto].
      - apply stable_apply_raw; auto.
      - case_bool_decide; [apply keeps_ret | apply stable_wrapDbMethod; auto].
      - intros s' Hs'. now apply H7.
      - intros s' Hs'. unfold complete. destruct (inflight s' !! i); [|exact Hs'].
        by_keeps. apply keeps_bind; [apply keeps_modify; auto|]. intros _.
        destruct (last _) as [[| |f]|];
          first [apply stable_invoke; auto | apply keeps_ret].
      - now destruct (Hact i).
      - apply stable_apply_raw; auto. }
    destruct (handler r act s) as [[u|x] s']; simpl in *; exact Hk. }
  destruct act as [m a|m a|n m a| |i vals|i|e];
    try (left; apply Hother; discriminate).
  clear Hother. unfold step, handler, tick.
  destruct (timers s !! i) as [w'|] eqn:Hi; [|now left].
  unfold bind, modify. simpl. rewrite check_unfold. simpl.
  assert (Hcases : w = w' ∨ w ∈ delete i (timers s)).
  { rewrite <- (take_drop_middle _ _ _ Hi) in Hw.
    rewrite delete_take_drop.
    apply elem_of_app in Hw as [Hw|Hw]; [right; apply elem_of_app; now left|].
    apply elem_of_cons in Hw as [Hw|Hw]; [now left|].
    right. apply elem_of_app. now right. }
  case_bool_decide.
  - destruct Hcases as [<-|Hin].
    + right. destruct w; simpl; apply elem_of_app; right;
        apply list_elem_of_singleton; reflexivity.
    + left. now destruct w'.
  - left. simpl. apply elem_of_app.
    destruct Hcases as [<-|Hin]; [right|now left].
    now apply list_elem_of_singleton.
Qed.

(** ** Round trips *)

Lemma hijack_snoc_fn a f : hijack (a ++ [AFn f]) = a ++ [AFn (NewCallback f)].
Proof.
  unfold hijack. rewrite last_snoc, length_app. simpl.
  replace (length a + 1 - 1)%nat with (length a) by lia.
  now rewrite take_app_length.
Qed.

Lemma locking_not_emitter m : locking m = true → m ∉ emitterMethods.
Proof.
  intros Hl Hm. unfold emitterMethods in Hm.
  rewrite !elem_of_cons, elem_of_nil in Hm.
  destruct Hm as [E|[E|[E|[E|[E|[E|[E|[E|[]]]]]]]]]; subst; discriminate Hl.
Qed.

Lemma lookup_snoc {A} (l : list A) x : (l ++ [x]) !! length l = Some x.
Proof. now apply list_lookup_middle. Qed.

Lemma delete_snoc {A} (l : list A) x : delete (length l) (l ++ [x]) = l.
Proof. rewrite delete_middle. apply app_nil_r. Qed.

(** X15. While no transaction is registered, a locking call made on
    the facade with a callback and then completed by the connection
    is a round trip: the caller's callback is called with exactly the
    values the connection reported, the counter is back at its value,
    and nothing else has changed but the trace. *)
Theorem locking_call_round_trip r methods acts m ua id vals
  (Hm : m ∈ methods) (Hl : locking m = true)
  (Hidle : isNull (currentTransaction (run r acts (TransactionDatabase methods)))
           = true) :
  let s := run r acts (TransactionDatabase methods) in
  let s' := run r [CallFacade m (ua ++ [UFn id]);
                   Complete (length (inflight s)) vals] s in
  _lock s' = _lock s ∧ inflight s' = inflight s ∧ queue s' = queue s ∧
  timers s' = timers s ∧ currentTransaction s' = currentTransaction s ∧
  activations s' = activations s ∧
  log s' =
    {| event := Called id vals; lock_then := _lock s |} ::
    {| event := Dispatch Connection m
                  ((inject <$> ua) ++ [AFn (NewCallback (UserF id))]);
       lock_then := _lock s + 1 |} :: log s.
Proof.
  intros s. fold s in Hidle.
  assert (H : inv methods false s).
  { apply inv_run; [discriminate | apply inv_initial]. }
  destruct (locking_not_special _ Hl) as (He & Hc & Hr).
  assert (Hown : own s !! m = Some (Wrapped Connection m)).
  { rewrite (inv_own _ _ _ H), facade_methods_lookup.
    rewrite bool_decide_eq_false_2 by (intros ->; discriminate Hl).
    rewrite bool_decide_eq_true_2; [reflexivity|]. split; [exact Hm|].
    unfold prohibitedMethods. rewrite !elem_of_cons, elem_of_nil.
    intros [E|[E|[E|[E|[E|[E|[E|[E|[E|[]]]]]]]]]]; subst; discriminate Hl. }
  assert (Hdb : db s !! m = Some Native).
  { rewrite (inv_db _ _ _ H), handle_methods_lookup by assumption.
    now rewrite bool_decide_eq_true_2. }
  assert (Hpos : (0 ≤ _lock s)%Z) by (rewrite (inv_lock _ _ _ H); lia).
  assert (Hstep : step r s (CallFacade m (ua ++ [UFn id])) =
                  outstanding Connection m
                    ((inject <$> ua) ++ [AFn (NewCallback (UserF id))])
                    (logged (Dispatch Connection m
                               ((inject <$> ua) ++ [AFn (NewCallback (UserF id))]))
                       (set_lock (_lock s + 1) s))).
  { unfold step, handler.
    rewrite bool_decide_eq_false_2 by now apply locking_not_emitter.
    unfold apply_facade. rewrite Hown. unfold wrapDbMethod. rewrite Hl.
    rewrite fmap_app. simpl. rewrite hijack_snoc_fn.
    munfold. simpl. rewrite Hidle. simpl.
    unfold apply_raw. simpl. rewrite Hdb. now rewrite native_eq. }
  simpl. rewrite Hstep. unfold step, handler, complete. simpl.
  rewrite lookup_snoc. unfold bind, modify. simpl.
  rewrite last_snoc, delete_snoc. simpl.
  rewrite bool_decide_eq_false_2 by lia. unfold bind, modify. simpl.
  repeat split; try reflexivity; try lia.
  f_equal. f_equal. lia.
Qed.

(** X16. On an idle facade (no transaction registered, counter at
    zero, queue empty) a transaction that begins and is committed or
    rolled back without an error is a round trip: the caller of
    [beginTransaction] is called back with [null] and the handle after
    BEGIN, the caller of [commit] or [rollback] with [null] after the
    COMMIT or ROLLBACK, in that order, and the facade is idle again
    with one more, finished, activation. *)
Theorem transaction_round_trip r methods acts (by_commit : bool) f g
  (Hb : "beginTransaction" ∉ methods)
  (Hidle : isNull (currentTransaction (run r acts (TransactionDatabase methods)))
           = true)
  (Hlock : _lock (run r acts (TransactionDatabase methods)) = 0)
  (Hqueue : queue (run r acts (TransactionDatabase methods)) = []) :
  let s := run r acts (TransactionDatabase methods) in
  let k := length (inflight s) in
  let s' := run r [CallFacade "beginTransaction" [UFn f];
                   Complete k [VNull];
                   CallHandle (if by_commit then "commit" else "rollback") [UFn g];
                   Complete k [VNull]] s in
  currentTransaction s' = VNull ∧ _lock s' = 0 ∧ queue s' = [] ∧
  inflight s' = inflight s ∧ timers s' = timers s ∧
  activations s' =
    activations s ++ [{| finished := true; callback := Fn f |}] ∧
  map event (log s') =
    [Called g [VNull];
     Issue (if by_commit then "COMMIT;" else "ROLLBACK;");
     Called f [VNull; VRef Connection];
     Issue "BEGIN;"] ++ map event (log s).
Proof.
  intros s k s'. fold s in Hidle, Hlock, Hqueue.
  assert (H : inv methods false s).
  { apply inv_run; [discriminate | apply inv_initial]. }
  assert (Hown : own s !! "beginTransaction" = None).
  { rewrite (inv_own _ _ _ H), facade_methods_lookup.
    rewrite bool_decide_eq_false_2 by discriminate.
    rewrite bool_decide_eq_false_2; [reflexivity | tauto]. }
  set (tid := length (activations s)).
  set (started :=
         set_db (<["rollback" := RollbackOf tid]>
                   (<["commit" := CommitOf tid]> (db s)))
           (set_currentTransaction (VRef Connection)
              (set_activations
                 (activations s ++ [{| finished := false; callback := Fn f |}])
                 s))).
  assert (H1 : step r s (CallFacade "beginTransaction" [UFn f]) =
               outstanding Connection "exec" [AStr "BEGIN;"; AFn (BeginDone tid)]
                 (logged (Issue "BEGIN;") started)).
  { unfold step, handler. rewrite bool_decide_eq_false_2.
    2:{ unfold emitterMethods. rewrite !elem_of_cons, elem_of_nil.
        intros [E|[E|[E|[E|[E|[E|[E|[E|[]]]]]]]]]; discriminate E. }
    unfold apply_facade. rewrite Hown. simpl.
    unfold beginTransaction, _wait. munfold. simpl. rewrite Hidle. simpl.
    rewrite check_unfold. simpl. now rewrite bool_decide_eq_true_2. }
  set (s1 := outstanding Connection "exec" [AStr "BEGIN;"; AFn (BeginDone tid)]
               (logged (Issue "BEGIN;") started)) in *.
  assert (H2 : step r s1 (Complete k [VNull]) =
               logged (Called f [VNull; VRef Connection])
                 (logged (Issue "BEGIN;") started)).
  { unfold step, handler, complete, s1, k. simpl.
    rewrite lookup_snoc. unfold bind, modify. simpl.
    rewrite delete_snoc. unfold gets, callback_of, bind. simpl.
    unfold tid. rewrite lookup_snoc. simpl. reflexivity. }
  set (s2 := logged (Called f [VNull; VRef Connection])
               (logged (Issue "BEGIN;") started)) in *.
  set (w := if by_commit then WaitCommit tid (Fn g)
            else WaitRollback tid (ByCaller (Fn g))).
  assert (H3 : step r s2 (CallHandle (if by_commit then "commit" else "rollback")
                            [UFn g]) =
               outstanding Connection "exec" (arguments (boundary_call w))
                 (logged (Issue (if by_commit then "COMMIT;" else "ROLLBACK;"))
                    s2)).
  { assert (Hf : is_finished tid s2 = false).
    { unfold is_finished, s2, started, tid. simpl. now rewrite lookup_snoc. }
    unfold step, handler, apply_raw, w.
    destruct by_commit; simpl.
    - rewrite lookup_insert_ne by discriminate. rewrite lookup_insert_eq.
      unfold commit. rewrite Hf. unfold _wait. rewrite check_unfold. simpl.
      now rewrite bool_decide_eq_true_2.
    - rewrite lookup_insert_eq.
      unfold rollback. rewrite Hf. unfold _wait. rewrite check_unfold. simpl.
      now rewrite bool_decide_eq_true_2. }
  set (s3 := outstanding Connection "exec" (arguments (boundary_call w))
               (logged (Issue (if by_commit then "COMMIT;" else "ROLLBACK;")) s2))
    in *.
  assert (H4 : step r s3 (Complete k [VNull]) =
               logged (Called g [VNull])
                 (set_queue []
                    (closed_state tid
                       (logged (Issue (if by_commit then "COMMIT;"
                                       else "ROLLBACK;")) s2)))).
  { assert (Hfin : ∀ s0, queue s0 = [] →
              finishTransaction r tid VNull (ByCaller (Fn g)) s0 =
              (inl tt, logged (Called g [VNull])
                         (set_queue [] (closed_state tid s0)))).
    { intros s0 Hq0. rewrite finishTransaction_native
        by (rewrite Hq0; constructor).
      now rewrite Hq0. }
    unfold step, handler, complete, s3, k, w.
    destruct by_commit; simpl; rewrite lookup_snoc;
      unfold bind at 1; unfold modify at 1; simpl; rewrite delete_snoc;
      rewrite Hfin by exact Hqueue; reflexivity. }
  unfold s'. simpl. rewrite H1, H2, H3, H4. simpl.
  unfold tid. rewrite <- (Nat.add_0_r (length (activations s))) at 1.
  rewrite alter_app_r. simpl.
  repeat split; try reflexivity; try assumption.
Qed.

(** ** Nothing is left in the queue of an idle facade *)

(** [s'] has the queue, the registered transaction and the method
    tables of [s]. *)
Definition untouched (s s' : State) : Prop :=
  queue s' = queue s ∧ currentTransaction s' = currentTransaction s ∧
  db s' = db s ∧ own s' = own s ∧ activations s' = activations s.

Lemma untouched_refl s : untouched s s.
Proof. repeat split. Qed.

Lemma untouched_apply_raw r o m a s : untouched s (snd (apply_raw r o m a s)).
Proof.
  apply (stable_apply_raw (untouched s) r); try (intros; assumption).
  apply untouched_refl.
Qed.

Lemma untouched_check r w s : untouched s (snd (check r w s)).
Proof.
  apply (stable_check (untouched s) r); try (intros; assumption).
  apply untouched_refl.
Qed.

Lemma untouched_handle_rollback r f s :
  untouched s (snd (handle_rollback r f s)).
Proof.
  apply (stable_handle_rollback (untouched s) r); try (intros; assumption).
  apply untouched_refl.
Qed.

Lemma untouched_call_term cb vals s : untouched s (snd (call_term cb vals s)).
Proof. destruct cb as [[]|[]|]; repeat split. Qed.

Lemma own_foldl_release items : ∀ s, own (foldl release s items) = own s.
Proof.
  induction items as [|i items IH]; intros s; simpl; [reflexivity|].
  rewrite IH. unfold release. now destruct (is_lock (type i)).
Qed.

Lemma begin_idle r a s :
  isNull (currentTransaction s) = true →
  queue (snd (beginTransaction r a s)) = queue s ∧
  currentTransaction (snd (beginTransaction r a s)) = VRef Connection.
Proof.
  intros Hidle. unfold beginTransaction, _wait. munfold. simpl.
  rewrite Hidle. simpl.
  match goal with |- context [check r ?w ?s0] =>
    destruct (untouched_check r w s0) as (Hq & Hc & _) end.
  rewrite Hq, Hc. split; reflexivity.
Qed.

Section Settled.

Variable methods : list string.
Variable r : nat → Value → TermCb → M unit.

Hypothesis no_commit : "commit" ∉ methods.
Hypothesis no_rollback : "rollback" ∉ methods.
Hypothesis no_begin : "beginTransaction" ∉ methods.

(** What the wrappers and [beginTransaction] put in the queue. *)
Definition queued_ok (i : Item) : Prop :=
  match object i with
  | Facade => type i = Transaction ∧ method i = "beginTransaction"
  | Connection =>
      is_transaction (type i) = false ∧ method i ∈ methods ∧ method i ≠ "emit"
  | Statement _ => is_transaction (type i) = false
  end.

Definition settled (s : State) : Prop :=
  Forall queued_ok (queue s) ∧ (currentTransaction s = VNull → queue s = []).

(** The method tables, as the invariant has them. *)
Definition tables (s : State) : Prop :=
  db s = handle_methods methods (length (activations s)) ∧
  own s = facade_methods methods.

Lemma settled_untouched s s' : untouched s s' → settled s → settled s'.
Proof. intros (Hq & Hc & _) [H1 H2]. split; rewrite Hq, ?Hc; assumption. Qed.

Lemma tables_untouched s s' : untouched s s' → tables s → tables s'.
Proof. intros (_ & _ & Hd & Ho & Ha) [H1 H2]. split; rewrite ?Hd, ?Ho, ?Ha; assumption. Qed.

Lemma queued_native s i :
  tables s → queued_ok i → is_transaction (type i) = false → native_item s i.
Proof.
  intros [Hdb _] Hi Ht. unfold queued_ok, native_item in *.
  split; [exact Ht|]. destruct (object i).
  - destruct Hi as (_ & Hm & He). rewrite Hdb.
    rewrite handle_methods_lookup; [now rewrite bool_decide_eq_true_2 | exact He | |];
      intros E; rewrite E in Hm; contradiction.
  - exact Logic.I.
  - destruct Hi as [Hi _]. rewrite Hi in Ht. discriminate.
Qed.

Lemma queue_split (q : list Item) :
  Forall (λ i, is_transaction (type i) = false) q ∨
  ∃ pre tx post, q = pre ++ tx :: post ∧
    Forall (λ i, is_transaction (type i) = false) pre ∧ type tx = Transaction.
Proof.
  induction q as [|i q IH]; [left; constructor|].
  destruct (is_transaction (type i)) eqn:Ht.
  - right. exists [], i, q. split; [reflexivity|]. split; [constructor|].
    now destruct (type i).
  - destruct IH as [IH|(pre & tx & post & -> & Hpre & Htx)].
    + left. now constructor.
    + right. exists (i :: pre), tx, post. split; [reflexivity|].
      split; [now constructor | exact Htx].
Qed.

Lemma settled_finishTransaction tid e cb s :
  tables s → Forall queued_ok (queue s) →
  settled (snd (finishTransaction r tid e cb s)).
Proof.
  intros Ht Hq.
  assert (Ht0 : tables (closed_state tid s)).
  { destruct Ht as [Hd Ho]. split; simpl; [|exact Ho].
    now rewrite length_alter. }
  destruct (queue_split (queue s)) as [Hall|(pre & tx & post & Hs & Hpre & Htx)].
  - rewrite finishTransaction_native.
    + eapply settled_untouched.
      * apply untouched_call_term.
      * split; rewrite queue_foldl_release; simpl; [constructor | reflexivity].
    + apply Forall_forall. intros i Hi.
      apply (native_item_db (closed_state tid s)); [reflexivity|].
      apply queued_native; [exact Ht0 | |].
      * eapply Forall_forall in Hq; [exact Hq | exact Hi].
      * eapply Forall_forall in Hall; [exact Hall | exact Hi].
  - rewrite Hs in Hq. apply Forall_app in Hq as [Hqpre Hqrest].
    inversion Hqrest as [|? ? Hqtx Hqpost]; subst.
    assert (Hnative : Forall (native_item (closed_state tid s)) pre).
    { apply Forall_forall. intros i Hi. apply queued_native; [exact Ht0 | |].
      - eapply Forall_forall in Hqpre; [exact Hqpre | exact Hi].
      - eapply Forall_forall in Hpre; [exact Hpre | exact Hi]. }
    assert (Htxf : object tx = Facade ∧ method tx = "beginTransaction").
    { unfold queued_ok in Hqtx. destruct (object tx).
      - destruct Hqtx as [Hn _]. rewrite Htx in Hn. discriminate.
      - rewrite Htx in Hqtx. discriminate.
      - now destruct Hqtx. }
    destruct Htxf as [Hobj Hmeth].
    unfold finishTransaction. munfold. fold (closed_state tid s).
    rewrite (runQueue_until_transaction r (closed_state tid s) pre tx post
               Hs Hnative Htx).
    set (s1 := foldl release (set_queue post (closed_state tid s)) pre).
    assert (Hq1 : queue s1 = post) by (unfold s1; now rewrite queue_foldl_release).
    assert (Hc1 : currentTransaction s1 = VNull).
    { unfold s1. now destruct (frame_foldl_release pre
                                 (set_queue post (closed_state tid s))) as [-> _]. }
    assert (Ho1 : own s1 !! "beginTransaction" = None).
    { unfold s1. rewrite own_foldl_release. simpl.
      destruct Ht as [_ ->]. rewrite facade_methods_lookup.
      rewrite bool_decide_eq_false_2 by discriminate.
      rewrite bool_decide_eq_false_2; [reflexivity | tauto]. }
    unfold apply_item. rewrite Hobj, Hmeth. unfold apply_facade. munfold.
    rewrite Ho1. simpl.
    destruct (begin_idle r (args tx) s1) as [Hq2 Hc2]; [now rewrite Hc1|].
    destruct (beginTransaction r (args tx) s1) as [[u|x] s2]; simpl in *.
    + assert (Hs2 : settled s2).
      { split; [now rewrite Hq2, Hq1 | rewrite Hc2; discriminate]. }
      destruct cb as [[]|[]|]; exact Hs2.
    + split; [now rewrite Hq2, Hq1 | rewrite Hc2; discriminate].
Qed.

Lemma settled_wrapDbMethod o m a s :
  match o with
  | Connection => m ∈ methods ∧ m ≠ "emit"
  | Statement _ => True
  | Facade => False
  end →
  settled s → settled (snd (wrapDbMethod r o m a s)).
Proof.
  intros Ho Hs. unfold wrapDbMethod. munfold. simpl.
  destruct (isNull (currentTransaction s)) eqn:Hidle.
  - eapply settled_untouched; [|exact Hs].
    destruct (locking m); simpl;
      match goal with |- context [apply_raw r ?o' ?m' ?a' ?s0] =>
        destruct (untouched_apply_raw r o' m' a' s0) as (Hq & Hc & Hd & Hw & Ha)
      end; repeat split; assumption.
  - simpl. destruct Hs as [H1 H2]. split.
    + apply Forall_app. split; [exact H1|]. constructor; [|constructor].
      unfold queued_ok. simpl. destruct o.
      * split; [now destruct (locking m) | exact Ho].
      * now destruct (locking m).
      * contradiction.
    + intros E. simpl in E. rewrite E in Hidle. discriminate.
Qed.

Lemma settled_beginTransaction a s :
  settled s → settled (snd (beginTransaction r a s)).
Proof.
  intros [H1 H2]. destruct (isNull (currentTransaction s)) eqn:Hidle.
  - destruct (begin_idle r a s Hidle) as [Hq Hc].
    split; [now rewrite Hq | rewrite Hc; discriminate].
  - unfold beginTransaction. munfold. simpl. rewrite Hidle. simpl. split.
    + apply Forall_app. split; [exact H1|]. constructor; [|constructor].
      split; reflexivity.
    + intros E. simpl in E. rewrite E in Hidle. discriminate.
Qed.

Lemma settled_invoke f vals : ∀ s,
  tables s → settled s → settled (snd (invoke r f vals s)).
Proof.
  induction f; intros s Ht Hs; simpl.
  - exact Hs.
  - case_bool_decide; [exact Hs|]. unfold bind, modify. simpl.
    apply IHf; [exact Ht | exact Hs].
  - destruct (truthy _); simpl; [|exact Hs].
    eapply settled_untouched; [apply untouched_apply_raw | exact Hs].
  - unfold bind, gets. simpl.
    destruct (truthy _); destruct (callback_of tid s); exact Hs.
  - destruct (truthy _).
    + eapply settled_untouched; [apply untouched_handle_rollback | exact Hs].
    + apply settled_finishTransaction; [exact Ht | apply Hs].
  - apply settled_finishTransaction; [exact Ht | apply Hs].
  - destruct cb; exact Hs.
  - exact Hs.
Qed.

Lemma settled_handler act s :
  inv methods false s → settled s → settled (snd (handler r act s)).
Proof.
  intros H Hs.
  assert (Ht : tables s) by (split; [apply (inv_db _ _ _ H) | apply (inv_own _ _ _ H)]).
  destruct act; simpl.
  - case_bool_decide as He; [exact Hs|].
    unfold apply_facade. rewrite (inv_own _ _ _ H), facade_methods_lookup.
    case_bool_decide; [exact Hs|].
    case_bool_decide as Hw.
    + apply settled_wrapDbMethod; [|exact Hs]. destruct Hw as [Hm Hp].
      split; [exact Hm|]. intros ->. apply Hp.
      apply (bool_decide_eq_true_1 _). reflexivity.
    + case_bool_decide; [now apply settled_beginTransaction | exact Hs].
  - eapply settled_untouched; [apply untouched_apply_raw | exact Hs].
  - case_bool_decide; [exact Hs|]. now apply settled_wrapDbMethod.
  - exact Hs.
  - unfold complete. destruct (inflight s !! i); [|exact Hs].
    unfold bind, modify. simpl.
    destruct (last _) as [[| |f]|]; try exact Hs.
    apply settled_invoke; [exact Ht | exact Hs].
  - unfold tick. destruct (timers s !! i) as [w|]; [|exact Hs].
    unfold bind, modify. simpl.
    eapply settled_untouched; [apply untouched_check | exact Hs].
  - eapply settled_untouched; [apply untouched_apply_raw | exact Hs].
Qed.

Lemma settled_run acts : ∀ s,
  inv methods false s → settled s → settled (run r acts s).
Proof.
  induction acts as [|act acts IH]; intros s H Hs; simpl; [exact Hs|].
  apply IH.
  - apply inv_step; [discriminate | exact H].
  - unfold step. pose proof (settled_handler act s H Hs) as Hh.
    destruct (handler r act s) as [[u|x] s']; exact Hh.
Qed.

End Settled.

(** X17. The database has no methods called [commit], [rollback] or
    [beginTransaction] of its own (node-sqlite3 has none).  Then in
    every execution the queue is empty whenever no transaction is
    registered: a call that was deferred is never left waiting once
    the transactions before it have finished. *)
Theorem idle_facade_has_empty_queue r methods acts
  (Hcommit : "commit" ∉ methods) (Hrollback : "rollback" ∉ methods)
  (Hbegin : "beginTransaction" ∉ methods)
  (Hidle : currentTransaction (run r acts (TransactionDatabase methods)) = VNull) :
  queue (run r acts (TransactionDatabase methods)) = [].
Proof.
  assert (Hs : settled methods (run r acts (TransactionDatabase methods))).
  { apply settled_run; try assumption; [apply inv_initial|].
    split; [constructor | reflexivity]. }
  now apply Hs.
Qed.

(** ** One transaction at a time, along the execution *)

(** The transaction requests waiting in the queue. *)
Definition requests (s : State) : nat :=
  length (filter (λ i, is_transaction (type i) = true) (queue s)).

(** The interval as the code has it: a transaction is registered from
    the moment a [beginTransaction] call finds none registered until
    [finishTransaction] runs at its completed COMMIT (without error) or
    ROLLBACK; a [beginTransaction] call made meanwhile waits, and the
    drain of that [finishTransaction] registers the first one waiting.
    [observe] follows one action on the pair (is a transaction
    registered, how many requests wait); [registered] replays an
    execution. *)
Definition next_registered (waiting : nat) : bool * nat :=
  match waiting with
  | O => (false, O)
  | S w => (true, w)
  end.

Definition observe (s : State) (act : Action) (st : bool * nat) : bool * nat :=
  match act with
  | CallFacade m _ =>
      if bool_decide (m = "beginTransaction")
      then (true, if fst st then S (snd st) else snd st)
      else st
  | Complete i vals =>
      match inflight s !! i ≫= (λ c, last_fn (arguments c)) with
      | Some (CommitDone _ _) =>
          if truthy (param 0 vals) then st else next_registered (snd st)
      | Some (RollbackDone _ _) => next_registered (snd st)
      | _ => st
      end
  | _ => st
  end.

Fixpoint registered (r : nat → Value → TermCb → M unit) (st : bool * nat)
  (s : State) (acts : list Action) : bool * nat :=
  match acts with
  | [] => st
  | act :: rest => registered r (observe s act st) (step r s act) rest
  end.

Lemma filter_requests_none (l : list Item) :
  Forall (λ i, is_transaction (type i) = false) l →
  filter (λ i, is_transaction (type i) = true) l = [].
Proof.
  induction 1 as [|i l Hi _ IH]; [reflexivity|].
  rewrite filter_cons. rewrite decide_False by congruence. exact IH.
Qed.

Section Interval.

Variable methods : list string.
Variable r : nat → Value → TermCb → M unit.

Hypothesis no_commit : "commit" ∉ methods.
Hypothesis no_rollback : "rollback" ∉ methods.
Hypothesis no_begin : "beginTransaction" ∉ methods.

(** The state agrees with the pair the replay has reached. *)
Definition tracks (st : bool * nat) (s : State) : Prop :=
  isNull (currentTransaction s) = negb (fst st) ∧
  requests s = snd st ∧
  Forall (queued_ok methods) (queue s).

Lemma tracks_untouched st s s' : untouched s s' → tracks st s → tracks st s'.
Proof.
  intros (Hq & Hc & _) (H1 & H2 & H3). unfold tracks, requests.
  rewrite Hq, Hc. auto.
Qed.

Lemma tracks_finishTransaction tid e cb s :
  tables methods s → Forall (queued_ok methods) (queue s) →
  tracks (next_registered (requests s)) (snd (finishTransaction r tid e cb s)).
Proof.
  intros Ht Hq.
  assert (Ht0 : tables methods (closed_state tid s)).
  { destruct Ht as [Hd Ho]. split; simpl; [|exact Ho].
    now rewrite length_alter. }
  destruct (queue_split (queue s)) as [Hall|(pre & tx & post & Hs & Hpre & Htx)].
  - unfold requests. rewrite (filter_requests_none _ Hall). simpl.
    rewrite finishTransaction_native.
    + eapply tracks_untouched; [apply untouched_call_term|].
      destruct (frame_foldl_release (queue s)
                  (set_queue [] (closed_state tid s))) as [Hc _].
      unfold tracks, requests. rewrite Hc, queue_foldl_release. simpl.
      repeat split. constructor.
    + apply Forall_forall. intros i Hi.
      apply (native_item_db (closed_state tid s)); [reflexivity|].
      apply (queued_native methods); try assumption.
      * eapply Forall_forall in Hq; [exact Hq | exact Hi].
      * eapply Forall_forall in Hall; [exact Hall | exact Hi].
  - assert (Hreq : requests s =
                   S (length (filter (λ i, is_transaction (type i) = true) post))).
    { unfold requests. rewrite Hs, filter_app, filter_cons.
      rewrite (filter_requests_none _ Hpre).
      rewrite decide_True by (rewrite Htx; reflexivity). reflexivity. }
    rewrite Hreq. simpl.
    rewrite Hs in Hq. apply Forall_app in Hq as [Hqpre Hqrest].
    inversion Hqrest as [|? ? Hqtx Hqpost]; subst.
    assert (Hnative : Forall (native_item (closed_state tid s)) pre).
    { apply Forall_forall. intros i Hi.
      apply (queued_native methods); try assumption.
      - eapply Forall_forall in Hqpre; [exact Hqpre | exact Hi].
      - eapply Forall_forall in Hpre; [exact Hpre | exact Hi]. }
    assert (Htxf : object tx = Facade ∧ method tx = "beginTransaction").
    { unfold queued_ok in Hqtx. destruct (object tx).
      - destruct Hqtx as [Hn _]. rewrite Htx in Hn. discriminate.
      - rewrite Htx in Hqtx. discriminate.
      - now destruct Hqtx. }
    destruct Htxf as [Hobj Hmeth].
    unfold finishTransaction. munfold. fold (closed_state tid s).
    rewrite (runQueue_until_transaction r (closed_state tid s) pre tx post
               Hs Hnative Htx).
    set (s1 := foldl release (set_queue post (closed_state tid s)) pre).
    assert (Hq1 : queue s1 = post) by (unfold s1; now rewrite queue_foldl_release).
    assert (Hc1 : currentTransaction s1 = VNull).
    { unfold s1. now destruct (frame_foldl_release pre
                                 (set_queue post (closed_state tid s))) as [-> _]. }
    assert (Ho1 : own s1 !! "beginTransaction" = None).
    { unfold s1. rewrite own_foldl_release. simpl.
      destruct Ht as [_ ->]. rewrite facade_methods_lookup.
      rewrite bool_decide_eq_false_2 by discriminate.
      rewrite bool_decide_eq_false_2; [reflexivity | tauto]. }
    unfold apply_item. rewrite Hobj, Hmeth. unfold apply_facade. munfold.
    rewrite Ho1. simpl.
    destruct (begin_idle r (args tx) s1) as [Hq2 Hc2]; [now rewrite Hc1|].
    assert (Hend : ∀ s2, queue s2 = queue s1 →
              currentTransaction s2 = VRef Connection →
              tracks (true, length (filter (λ i, is_transaction (type i) = true)
                                      post)) s2).
    { intros s2 Hq3 Hc3. unfold tracks, requests.
      rewrite Hq3, Hq1, Hc3. simpl. auto. }
    destruct (beginTransaction r (args tx) s1) as [[u|x] s2]; simpl in *.
    + destruct cb as [[]|[]|]; now apply Hend.
    + now apply Hend.
Qed.

Lemma tracks_wrapDbMethod st o m a s :
  match o with
  | Connection => m ∈ methods ∧ m ≠ "emit"
  | Statement _ => True
  | Facade => False
  end →
  tracks st s → tracks st (snd (wrapDbMethod r o m a s)).
Proof.
  intros Ho Hs. unfold wrapDbMethod. munfold. simpl.
  destruct (isNull (currentTransaction s)) eqn:Hidle.
  - eapply tracks_untouched; [|exact Hs].
    destruct (locking m); simpl;
      match goal with |- context [apply_raw r ?o' ?m' ?a' ?s0] =>
        destruct (untouched_apply_raw r o' m' a' s0) as (Hq & Hc & Hd & Hw & Ha)
      end; repeat split; assumption.
  - simpl. destruct Hs as (H1 & H2 & H3). unfold tracks, requests. simpl.
    split; [exact H1|]. split.
    + rewrite filter_app, filter_cons, length_app. simpl.
      rewrite decide_False by (destruct (locking m); discriminate).
      simpl. unfold requests in H2. lia.
    + apply Forall_app. split; [exact H3|]. constructor; [|constructor].
      unfold queued_ok. simpl. destruct o.
      * split; [now destruct (locking m) | exact Ho].
      * now destruct (locking m).
      * contradiction.
Qed.

Lemma tracks_beginTransaction st a s :
  tracks st s →
  tracks (true, if fst st then S (snd st) else snd st)
    (snd (beginTransaction r a s)).
Proof.
  intros (H1 & H2 & H3). destruct (isNull (currentTransaction s)) eqn:Hidle.
  - destruct (begin_idle r a s Hidle) as [Hq Hc].
    unfold tracks, requests. rewrite Hq, Hc.
    destruct (fst st); [discriminate H1|]. simpl. auto.
  - unfold beginTransaction. munfold. simpl. rewrite Hidle. simpl.
    unfold tracks, requests. simpl. rewrite Hidle.
    destruct (fst st); [|discriminate H1]. simpl. split; [reflexivity|]. split.
    + rewrite filter_app, filter_cons, length_app. simpl.
      unfold requests in H2. lia.
    + apply Forall_app. split; [exact H3|]. constructor; [|constructor].
      split; reflexivity.
Qed.

Lemma tracks_invoke_plain st f vals s :
  plain_fn f = true → tracks st s → tracks st (snd (invoke r f vals s)).
Proof.
  destruct f; try discriminate; intros _ Hs; simpl; try exact Hs.
  - destruct (truthy _); simpl; [|exact Hs].
    eapply tracks_untouched; [apply untouched_apply_raw | exact Hs].
  - destruct cb; exact Hs.
Qed.

Lemma tracks_step st act s :
  inv methods false s → tracks st s →
  tracks (observe s act st) (step r s act).
Proof.
  intros H Hs.
  assert (Ht : tables methods s)
    by (split; [apply (inv_db _ _ _ H) | apply (inv_own _ _ _ H)]).
  assert (Hstep : tracks (observe s act st) (snd (handler r act s))).
  { destruct act; simpl.
    - destruct (decide (m = "beginTransaction")) as [->|Hnb].
      + rewrite (bool_decide_eq_true_2 ("beginTransaction" = "beginTransaction"))
          by reflexivity.
        rewrite bool_decide_eq_false_2.
        2:{ unfold emitterMethods. rewrite !elem_of_cons, elem_of_nil.
            intros [E|[E|[E|[E|[E|[E|[E|[E|[]]]]]]]]]; discriminate E. }
        unfold apply_facade. rewrite (inv_own _ _ _ H), facade_methods_lookup.
        rewrite bool_decide_eq_false_2 by discriminate.
        rewrite bool_decide_eq_false_2 by tauto.
        now apply tracks_beginTransaction.
      + rewrite (bool_decide_eq_false_2 (m = "beginTransaction")) by exact Hnb.
        destruct (bool_decide (m ∈ emitterMethods)); [exact Hs|].
        unfold apply_facade. rewrite (inv_own _ _ _ H), facade_methods_lookup.
        case_bool_decide as Hp; [exact Hs|].
        case_bool_decide as Hw;
          [|rewrite bool_decide_eq_false_2 by exact Hnb; exact Hs].
        destruct Hw as [Hm Hpr].
        apply tracks_wrapDbMethod; [|exact Hs].
        split; [exact Hm|]. intros ->. apply Hpr.
        apply (bool_decide_eq_true_1 _). reflexivity.
    - eapply tracks_untouched; [apply untouched_apply_raw | exact Hs].
    - case_bool_decide; [exact Hs|]. now apply tracks_wrapDbMethod.
    - exact Hs.
    - unfold complete. destruct (inflight s !! i) as [c|] eqn:Hi; [|exact Hs].
      unfold bind, modify. simpl.
      pose proof (Forall_lookup_1 _ _ _ _ (inv_inflight _ _ _ H) Hi) as Hok.
      simpl in Hok. unfold call_ok in Hok. unfold last_fn in *.
      destruct (last (arguments c)) as [[v|x|f]|]; try exact Hs.
      destruct f; simpl; try exact Hs.
      + case_bool_decide; [exact Hs|]. unfold bind, modify. simpl.
        now apply tracks_invoke_plain.
      + destruct (truthy _); simpl; [|exact Hs].
        eapply tracks_untouched; [apply untouched_apply_raw | exact Hs].
      + unfold bind, gets. simpl.
        destruct (truthy _); destruct (callback_of tid _); exact Hs.
      + destruct (truthy _).
        * eapply tracks_untouched; [apply untouched_handle_rollback | exact Hs].
        * destruct Hs as (H1 & H2 & H3). rewrite <- H2.
          apply (tracks_finishTransaction tid VNull (ByCaller cb)
                   (set_inflight (delete i (inflight s)) s));
            [exact Ht | exact H3].
      + destruct Hs as (H1 & H2 & H3). rewrite <- H2.
        apply (tracks_finishTransaction tid (param 0 vals) cb
                 (set_inflight (delete i (inflight s)) s));
          [exact Ht | exact H3].
      + destruct cb; exact Hs.
    - unfold tick. destruct (timers s !! i) as [w|]; [|exact Hs].
      unfold bind, modify. simpl.
      eapply tracks_untouched; [apply untouched_check | exact Hs].
    - eapply tracks_untouched; [apply untouched_apply_raw | exact Hs]. }
  unfold step. destruct (handler r act s) as [[u|x] s']; exact Hstep.
Qed.

Lemma tracks_run acts : ∀ st s,
  inv methods false s → tracks st s →
  tracks (registered r st s acts) (run r acts s).
Proof.
  induction acts as [|act acts IH]; intros st s H Hs; simpl; [exact Hs|].
  apply IH.
  - apply inv_step; [discriminate | exact H].
  - now apply tracks_step.
Qed.

End Interval.

(** C2, as the code has it.  In every execution in which no BEGIN fails
    and [commit] or [rollback] is not called on the handle while a
    commit or rollback is under way, [currentTransaction] is non-null
    exactly while some activation of [beginTransaction] has not run
    [finishTransaction]; there is at most one such activation and it is
    the latest one.  [beginTransaction] registers its activation at the
    moment it is called with [currentTransaction] null, before BEGIN is
    issued.  Along the execution (for a database without methods called
    [commit], [rollback] or [beginTransaction] of its own), that is the
    interval [registered] replays: from the [beginTransaction] call
    that finds no transaction registered, or from the drain that starts
    a waiting request, until [finishTransaction] runs at the completed
    COMMIT or ROLLBACK. *)
Theorem one_transaction_at_a_time r methods acts
  (Hd : disciplined r (TransactionDatabase methods) acts = true) :
  let s := run r acts (TransactionDatabase methods) in
  (currentTransaction s ≠ VNull ↔ ∃ tid, unfinished tid s) ∧
  (∀ i j, unfinished i s → unfinished j s → i = j) ∧
  (∀ tid, unfinished tid s → S tid = length (activations s)) ∧
  (∀ a, isNull (currentTransaction s) = true →
     currentTransaction (snd (beginTransaction r a s)) = VRef Connection ∧
     activations (snd (beginTransaction r a s)) =
       activations s ++
       [{| finished := false; callback := callback_arg (head a) |}]) ∧
  ("commit" ∉ methods → "rollback" ∉ methods → "beginTransaction" ∉ methods →
   (currentTransaction s ≠ VNull ↔
    fst (registered r (false, O) (TransactionDatabase methods) acts) = true)).
Proof.
  intros s.
  assert (H : inv methods true s).
  { apply inv_run; [intros _; exact Hd | apply inv_initial]. }
  pose proof (unfinished_cases s (inv_tx _ _ _ H eq_refl)) as Hcases.
  split; [|split; [|split; [|split]]].
  - destruct Hcases as [[Hc Hnone]|[Hc (k & Hk & Hiff)]].
    + split; [congruence|]. intros [tid Ht]. now apply Hnone in Ht.
    + split; [|intros _; exact Hc]. intros _. exists k. now apply Hiff.
  - intros i j Hi Hj. destruct Hcases as [[Hc Hnone]|[Hc (k & Hk & Hiff)]].
    + now apply Hnone in Hi.
    + apply Hiff in Hi, Hj. congruence.
  - intros tid Ht. destruct Hcases as [[Hc Hnone]|[Hc (k & Hk & Hiff)]].
    + now apply Hnone in Ht.
    + apply Hiff in Ht. now subst.
  - intros a. apply beginTransaction_registers.
  - intros Hc Hr Hb.
    assert (Ht : tracks methods
                   (registered r (false, O) (TransactionDatabase methods) acts) s).
    { apply tracks_run; try assumption; [apply inv_initial|].
      repeat split. constructor. }
    destruct Ht as (Ht & _).
    destruct (inv_current _ _ _ H) as [E|E]; rewrite E in *; simpl in Ht.
    + split; [congruence|]. intros E'. rewrite E' in Ht. discriminate.
    + split; [|discriminate]. intros _.
      now destruct (fst (registered r (false, O) (TransactionDatabase methods) acts)).
Qed.

(** * Concrete executions of the further properties *)

Lemma one_transaction_at_a_time_witness :
  disciplined program fresh session = true ∧
  (currentTransaction (run program session fresh) ≠ VNull ↔
   ∃ tid, unfinished tid (run program session fresh)) ∧
  (currentTransaction (run program session fresh) ≠ VNull ↔
   fst (registered program (false, O) fresh session) = true).
Proof.
  assert (Hd : disciplined program (TransactionDatabase sqlite3_methods) session
               = true) by (vm_compute; reflexivity).
  pose proof (one_transaction_at_a_time program sqlite3_methods session Hd)
    as (H1 & _ & _ & _ & H5).
  split; [exact Hd|]. split; [exact H1|].
  apply H5; apply (bool_decide_eq_false_1 _); vm_compute; reflexivity.
Defined.

Lemma finished_forever_witness :
  is_finished 0 (run program [CallFacade "beginTransaction" [UFn 5]] committed)
    = true ∧
  commit program 0 (Fn 2)
    (run program [CallFacade "beginTransaction" [UFn 5]] committed) =
    (inl tt, logged (Called 2 [commit_refused])
               (run program [CallFacade "beginTransaction" [UFn 5]] committed)) ∧
  rollback program 0 (ByCaller (Fn 2))
    (run program [CallFacade "beginTransaction" [UFn 5]] committed) =
    (inl tt, logged (Called 2 [rollback_refused])
               (run program [CallFacade "beginTransaction" [UFn 5]] committed)).
Proof.
  apply (finished_forever program 0 2 [CallFacade "beginTransaction" [UFn 5]]
           committed).
  vm_compute. reflexivity.
Defined.

Lemma idle_facade_is_transparent_witness :
  step program fresh (CallFacade "configure" [UStr "busyTimeout"]) =
  step program fresh (CallHandle "configure" [UStr "busyTimeout"]).
Proof.
  apply (idle_facade_is_transparent program sqlite3_methods []
           "configure" [UStr "busyTimeout"]).
  - apply (bool_decide_eq_true_1 _). vm_compute. reflexivity.
  - apply (bool_decide_eq_false_1 _). vm_compute. reflexivity.
  - vm_compute. reflexivity.
  - vm_compute. reflexivity.
Defined.



Lemma hijack_keeps_other_arguments_witness :
  hijack [AStr "SELECT 1"; AFn (UserF 1)] !! 0%nat = Some (AStr "SELECT 1") ∧
  (length [AStr "SELECT 1"; AFn (UserF 1)]
   ≤ length (hijack [AStr "SELECT 1"; AFn (UserF 1)])
   ≤ S (length [AStr "SELECT 1"; AFn (UserF 1)]))%nat.
Proof.
  apply (hijack_keeps_other_arguments [AStr "SELECT 1"; AFn (UserF 1)] 0
           (AStr "SELECT 1")).
  - reflexivity.
  - left. simpl. lia.
Defined.

(** A [beginTransaction] arrived while a statement was outstanding; the
    statement has completed since. *)
Definition waiting : list Action :=
  [ CallFacade "exec" [UStr "SELECT 1"; UFn 7];
    CallFacade "beginTransaction" [UFn 0];
    Complete 0 [VNull] ].

Lemma idle_connection_opens_gate_witness :
  _lock (run program waiting fresh) = 0 ∧
  step program (run program waiting fresh) (Tick 0) =
  outstanding Connection "exec" [AStr "BEGIN;"; AFn (BeginDone 0)]
    (logged (Issue "BEGIN;")
       (set_timers (delete 0%nat (timers (run program waiting fresh)))
          (run program waiting fresh))).
Proof.
  apply (idle_connection_opens_gate program sqlite3_methods waiting 0
           (WaitBegin 0)); vm_compute; reflexivity.
Defined.

(** A transaction is active and nothing is queued. *)
Definition active : State :=
  run program [CallFacade "beginTransaction" [UFn 0]; Complete 0 [VNull]] fresh.

Lemma registered_transaction_defers_calls_witness :
  (∃ i, handler program (CallFacade "run" [UStr "INSERT 1"]) active =
          (inl tt, set_queue (queue active ++ [i]) active) ∧
        method i = "run" ∧
        args i = [AStr "INSERT 1"; AFn (NewCallback ForwardError)]) ∧
  (∃ i, handler program (CallStatement 0 "finalize" []) active =
          (inl tt, set_queue (queue active ++ [i]) active) ∧
        object i = Statement 0 ∧ method i = "finalize" ∧
        args i = [AFn (NewCallback ForwardError)]).
Proof.
  pose proof (registered_transaction_defers_calls program sqlite3_methods
                [CallFacade "beginTransaction" [UFn 0]; Complete 0 [VNull]])
    as [Hf Hs]; [vm_compute; reflexivity|].
  split.
  - apply (Hf "run" [UStr "INSERT 1"]). right. split.
    + apply (bool_decide_eq_true_1 _). vm_compute. reflexivity.
    + apply (bool_decide_eq_false_1 _). vm_compute. reflexivity.
  - apply (Hs 0%nat "finalize" []).
    apply (bool_decide_eq_false_1 _). vm_compute. reflexivity.
Defined.

(** A transaction is active and one statement is already queued. *)
Definition backlog : State :=
  run program [CallFacade "run" [UStr "INSERT 0"]] active.

Definition submitted : list (string * list UArg) :=
  [ ("run", [UStr "INSERT 1"; UFn 1]);
    ("configure", [UStr "busyTimeout"]);
    ("run", [UStr "INSERT 2"]) ].

Lemma submitted_callable : Forall (callable backlog) submitted.
Proof.
  repeat constructor;
    first [ apply (bool_decide_eq_false_1 _); vm_compute; reflexivity
          | vm_compute; reflexivity ].
Qed.

Lemma backlog_native : Forall (native_item backlog) (queue backlog).
Proof. repeat constructor. Qed.

Lemma queued_calls_run_in_order_witness :
  run program (submit submitted) backlog =
    set_queue (queue backlog ++ map item_of submitted) backlog ∧
  inflight (snd (finishTransaction program 0 VNull (ByCaller (Fn 3))
                   (run program (submit submitted) backlog))) =
    inflight backlog ++ map call_of_item (queue backlog) ++
    map call_of submitted.
Proof.
  pose proof (queued_calls_run_in_order program 0 VNull (ByCaller (Fn 3))
                submitted backlog) as [H1 [H2 _]];
    [vm_compute; reflexivity | exact submitted_callable
    | exact backlog_native |].
  split; [exact H1 | exact H2].
Defined.

(** A transaction is active; a second [beginTransaction] and a
    statement have been submitted meanwhile. *)
Definition contended : State :=
  run program [CallFacade "beginTransaction" [UFn 2];
               CallFacade "run" [UStr "INSERT 2"]] active.

Lemma queued_transaction_starts_at_drain_witness :
  fst (finishTransaction program 0 VNull (ByCaller (Fn 3)) contended) = inl tt ∧
  currentTransaction
    (snd (finishTransaction program 0 VNull (ByCaller (Fn 3)) contended)) =
    VRef Connection.
Proof.
  pose proof (queued_transaction_starts_at_drain program 0 VNull 3
                [AFn (UserF 2)]
                [ {| type := Lock; object := Connection; method := "run";
                     args := [AStr "INSERT 2"; AFn (NewCallback ForwardError)] |} ]
                contended) as H.
  rewrite H; [| vm_compute; reflexivity | vm_compute; reflexivity].
  split; [reflexivity | vm_compute; reflexivity].
Defined.

Lemma commit_without_callback_still_closes_witness :
  fst (invoke program (CommitDone 0 NotAFunction) [VNull] active)
    = inr TypeError ∧
  is_finished 0
    (snd (invoke program (CommitDone 0 NotAFunction) [VNull] active)) = true.
Proof.
  assert (Hq : Forall (native_item active) (queue active))
    by (vm_compute; constructor).
  assert (Htid : (0 < length (activations active))%nat) by (vm_compute; lia).
  pose proof (commit_without_callback_still_closes program 0 1 active Hq Htid)
    as (H1 & _ & H3 & _).
  rewrite H1. split; [reflexivity | exact H3].
Defined.

Lemma only_caller_errors_escape_witness :
  UnhandledError (VError "SQLITE_IOERR") = TypeError ∨
  ∃ e, UnhandledError (VError "SQLITE_IOERR") = UnhandledError e.
Proof.
  apply (only_caller_errors_escape program sqlite3_methods []
           (ErrorEvent (VError "SQLITE_IOERR"))).
  vm_compute. reflexivity.
Defined.

Lemma prepare_bypasses_transaction_witness :
  db active !! "prepare" = Some Native ∧
  step program active (CallFacade "prepare" [UStr "SELECT ?"]) =
  outstanding Connection "prepare" [AStr "SELECT ?"]
    (logged (Dispatch Connection "prepare" [AStr "SELECT ?"]) active).
Proof.
  apply (prepare_bypasses_transaction program sqlite3_methods
           [CallFacade "beginTransaction" [UFn 0]; Complete 0 [VNull]]
           [UStr "SELECT ?"]).
  apply (bool_decide_eq_true_1 _). vm_compute. reflexivity.
Defined.

(** A [beginTransaction] is waiting for an outstanding statement. *)
Definition gated_begin : State :=
  run program [CallFacade "exec" [UStr "SELECT 1"; UFn 7];
               CallFacade "beginTransaction" [UFn 0]] fresh.

Lemma waiter_is_never_dropped_witness :
  WaitBegin 0 ∈ timers (step program gated_begin (Tick 0)) ∨
  boundary_call (WaitBegin 0) ∈ inflight (step program gated_begin (Tick 0)).
Proof.
  apply (waiter_is_never_dropped program (Tick 0) (WaitBegin 0) gated_begin).
  replace (timers gated_begin) with [WaitBegin 0] by (vm_compute; reflexivity).
  apply list_elem_of_here.
Defined.

Lemma locking_call_round_trip_witness :
  _lock (run program [CallFacade "run" [UStr "INSERT 1"; UFn 1];
                      Complete 0 [VNull]] fresh) = _lock fresh ∧
  inflight (run program [CallFacade "run" [UStr "INSERT 1"; UFn 1];
                         Complete 0 [VNull]] fresh) = inflight fresh.
Proof.
  pose proof (locking_call_round_trip program sqlite3_methods [] "run"
                [UStr "INSERT 1"] 1 [VNull]) as H.
  destruct H as (H1 & H2 & _).
  - apply (bool_decide_eq_true_1 _). vm_compute. reflexivity.
  - vm_compute. reflexivity.
  - vm_compute. reflexivity.
  - split; [exact H1 | exact H2].
Defined.

Lemma transaction_round_trip_witness :
  currentTransaction
    (run program [CallFacade "beginTransaction" [UFn 0]; Complete 0 [VNull];
                  CallHandle "rollback" [UFn 1]; Complete 0 [VNull]] fresh)
    = VNull ∧
  map event
    (log (run program [CallFacade "beginTransaction" [UFn 0]; Complete 0 [VNull];
                       CallHandle "rollback" [UFn 1]; Complete 0 [VNull]] fresh))
    = [Called 1 [VNull]; Issue "ROLLBACK;";
       Called 0 [VNull; VRef Connection]; Issue "BEGIN;"] ++ map event (log fresh).
Proof.
  pose proof (transaction_round_trip program sqlite3_methods [] false 0 1) as H.
  destruct H as (H1 & _ & _ & _ & _ & _ & H7).
  - apply (bool_decide_eq_false_1 _). vm_compute. reflexivity.
  - vm_compute. reflexivity.
  - vm_compute. reflexivity.
  - vm_compute. reflexivity.
  - split; [exact H1 | exact H7].
Defined.

(** A statement was deferred during a transaction that has committed
    since. *)
Definition released : list Action :=
  [ CallFacade "beginTransaction" [UFn 0]; Complete 0 [VNull];
    CallFacade "run" [UStr "INSERT 2"];
    CallHandle "commit" [UFn 1]; Complete 0 [VNull] ].

Lemma idle_facade_has_empty_queue_witness :
  queue (run program released fresh) = [].
Proof.
  apply (idle_facade_has_empty_queue program sqlite3_methods released).
  - apply (bool_decide_eq_false_1 _). vm_compute. reflexivity.
  - apply (bool_decide_eq_false_1 _). vm_compute. reflexivity.
  - apply (bool_decide_eq_false_1 _). vm_compute. reflexivity.
  - vm_compute. reflexivity.
Defined.
